(** * ltv-calculator: SaaS metric formulas

    A shallow embedding of [libs/index.ts] (the [LTVCalculator] class) and of
    the module of exported functions ([calculateARPU], [calculateMRR], ...),
    together with the properties the specification states about them.

    A JavaScript [number] is an IEEE 754 binary64 value.  The formulas are
    written once, over an interface of arithmetic operations, and read in two
    ways: with binary64 arithmetic (what the program computes) and with exact
    rational arithmetic (what the formulas denote when nothing is rounded). *)

From Stdlib Require Import ZArith List Bool String Lia.
From Stdlib Require Import Sorting.Permutation Sorting.Sorted.
From Stdlib Require Import QArith Qcanon Field.
From Stdlib Require Import Floats.SpecFloat.
Import ListNotations.

Set Implicit Arguments.
Local Open Scope Z_scope.

(** ** The arithmetic of [number] *)

Class Arith (N : Type) := {
  (** the number denoted by an integer literal, or by an array length *)
  lit : Z -> N;
  add : N -> N -> N;
  sub : N -> N -> N;
  mul : N -> N -> N;
  div : N -> N -> N;
  (** [a === b] *)
  strict_eq : N -> N -> bool;
  (** [a > 0], the test [Array.prototype.sort] applies to a comparator's result *)
  is_pos : N -> bool
}.

(** [x] is truthy: neither [0], [-0] nor [NaN]. *)
Definition truthy {N} `{Arith N} (x : N) : bool :=
  strict_eq x x && negb (strict_eq x (lit 0)).

(** An optional argument is truthy when it is given and truthy. *)
Definition truthy_arg {N} `{Arith N} (x : option N) : bool :=
  match x with Some v => truthy v | None => false end.

(** ** Binary64 *)

Module Binary64.

Definition prec : Z := 53.
Definition emax : Z := 1024.

Definition float64 : Type := spec_float.

Definition NaN : float64 := S754_nan.
Definition Infinity : float64 := S754_infinity false.
Definition neg_zero : float64 := S754_zero true.

Definition of_Z (z : Z) : float64 := binary_normalize prec emax z 0 false.

(** A value a JavaScript number can hold: mantissa and exponent in range. *)
Definition is_number (x : float64) : bool := valid_binary prec emax x.

Definition is_nan (x : float64) : bool :=
  match x with S754_nan => true | _ => false end.

Definition is_finite (x : float64) : bool :=
  match x with S754_zero _ | S754_finite _ _ _ => true | _ => false end.

Definition eqb : float64 -> float64 -> bool := SFeqb.
Definition ltb : float64 -> float64 -> bool := SFltb.
Definition leb : float64 -> float64 -> bool := SFleb.

Definition is_positive (v : float64) : bool := ltb (S754_zero false) v.

(** *** The value of a number

    The least exponent of a mantissa is [3 - emax - prec]; every finite
    number is an integer multiple of [2 ^ e_min]. *)
Definition e_min : Z := -1074.

Definition mag (m : positive) (e : Z) : Z := Zpos m * 2 ^ (e - e_min).

(** Above the magnitude of every finite number, in the same unit. *)
Definition huge : Z := 2 ^ 2100.

(** The value of a number in units of [2 ^ e_min], with the infinities
    placed beyond the finite range.  [NaN] has no value; it is given [0]
    and excluded where the value matters. *)
Definition val (x : float64) : Z :=
  match x with
  | S754_zero _ => 0
  | S754_nan => 0
  | S754_infinity s => cond_Zopp s huge
  | S754_finite s m e => cond_Zopp s (mag m e)
  end.

(** The exponent of a finite number is not below [e_min]. *)
Definition ranged (x : float64) : Prop :=
  match x with S754_finite _ _ e => e_min <= e | _ => True end.

(** The shapes the rounding of a magnitude with sign [s] can take. *)
Inductive rounded (s : bool) : float64 -> Prop :=
| rounded_zero : rounded s (S754_zero s)
| rounded_finite m e : e_min <= e -> rounded s (S754_finite s m e)
| rounded_infinity : rounded s (S754_infinity s).

Inductive rounded_nonzero (s : bool) : float64 -> Prop :=
| rounded_nonzero_finite m e : e_min <= e -> rounded_nonzero s (S754_finite s m e)
| rounded_nonzero_infinity : rounded_nonzero s (S754_infinity s).

End Binary64.

#[export] Instance binary64 : Arith Binary64.float64 := {
  lit := Binary64.of_Z;
  add := SFadd Binary64.prec Binary64.emax;
  sub := SFsub Binary64.prec Binary64.emax;
  mul := SFmul Binary64.prec Binary64.emax;
  div := SFdiv Binary64.prec Binary64.emax;
  strict_eq := Binary64.eqb;
  is_pos := Binary64.is_positive
}.

(** ** Exact rational arithmetic

    Division by zero does not occur in the statements made over this
    reading; [Qcdiv] gives it the value [0]. *)

#[export] Instance exact : Arith Qc := {
  lit := fun z => Q2Qc (inject_Z z);
  add := Qcplus;
  sub := Qcminus;
  mul := Qcmult;
  div := Qcdiv;
  strict_eq := Qc_eq_bool;
  is_pos := fun v => if Qclt_le_dec 0%Qc v then true else false
}.

(** ** Data model *)

Inductive NumberType := percentage | number.

Section DataModel.
Variable N : Type.

Record Subscription := {
  amount : N;
  interval : string
}.

Record CustomerChurnInput := {
  startCustomers : N;
  churnedCustomers : N
}.

Record RevenueChurnInput := {
  rc_startMRR : N;
  rc_churnedMRR : N;
  rc_contractionMRR : option N
}.

Record NRRInput := {
  startMRR : N;
  newMRR : option N;
  expansionMRR : option N;
  contractionMRR : option N;
  churnedMRR : N
}.

Record CohortDataPoint := {
  month : N;
  customers : N
}.
End DataModel.

Arguments Build_Subscription {N}.
Arguments Build_CustomerChurnInput {N}.
Arguments Build_RevenueChurnInput {N}.
Arguments Build_NRRInput {N}.
Arguments Build_CohortDataPoint {N}.

(** ** Arrays *)

Section Arrays.
Context {N : Type} `{Arith N}.
Variable A : Type.

(** [a.length] as a number *)
Definition length_number (a : list A) : N := lit (Z.of_nat (List.length a)).

(** One step of a stable sort by a comparator: [x], which came before
    every element of [l] in the input, goes after exactly those [y] at
    the front of [l] for which [cmp x y > 0]. *)
Fixpoint sort_insert (cmp : A -> A -> N) (x : A) (l : list A) : list A :=
  match l with
  | [] => [x]
  | y :: l' => if is_pos (cmp x y) then y :: sort_insert cmp x l' else x :: l
  end.

(** [Array.prototype.sort(cmp)] on the contents of an array.  The sort is
    stable; for a comparator that is a consistent ordering the result is
    fixed by the language, and this is the one every stable algorithm
    yields. *)
Definition array_sort (cmp : A -> A -> N) (a : list A) : list A :=
  fold_right (sort_insert cmp) [] a.

(** The store of arrays, addressed by reference. *)
Definition ref := nat.
Definition store := list (list A).

Definition deref (s : store) (r : ref) : list A := nth r s [].

Fixpoint assign (s : store) (r : ref) (a : list A) : store :=
  match s, r with
  | [], _ => []
  | _ :: s', O => a :: s'
  | b :: s', S r' => b :: assign s' r' a
  end.

(** [[...a]]: a fresh array with the elements of [a] *)
Definition spread (s : store) (r : ref) : store * ref :=
  (s ++ [deref s r], List.length s).

(** [a.sort(cmp)]: sorts in place and returns the same reference *)
Definition sort_in_place (cmp : A -> A -> N) (s : store) (r : ref) : store * ref :=
  (assign s r (array_sort cmp (deref s r)), r).
End Arrays.

(** ** The exported functions *)

Section Functions.
Context {N : Type} `{Arith N}.

Definition MONTHS_PER_YEAR : N := lit 12.
Definition WEEKS_PER_YEAR : N := lit 52.
Definition DAYS_PER_YEAR : N := lit 365.

Definition calculateARPU (sales users : N) : N := div sales users.

Definition calculateAverageDuration (churnRate : N) (type : option NumberType) : N :=
  match match type with Some t => t | None => percentage end with
  | percentage => div (lit 1) (div churnRate (lit 100))
  | number => div (lit 1) churnRate
  end.

Definition calculateLTV (arpu averageDuration : N) : N := mul arpu averageDuration.

Definition calculateMRR (subscriptions : list (Subscription N)) : N :=
  fold_left (fun total sub0 =>
    let amount := amount sub0 in
    let interval := interval sub0 in
    if String.eqb interval "month"%string then add total amount
    else if String.eqb interval "year"%string then add total (div amount MONTHS_PER_YEAR)
    else if String.eqb interval "week"%string then
      add total (div (mul amount WEEKS_PER_YEAR) MONTHS_PER_YEAR)
    else if String.eqb interval "day"%string then
      add total (div (mul amount DAYS_PER_YEAR) MONTHS_PER_YEAR)
    else total) subscriptions (lit 0).

Definition calculateARR (subscriptions : list (Subscription N)) : N :=
  mul (calculateMRR subscriptions) MONTHS_PER_YEAR.

Definition calculateCustomerChurnRate (input : CustomerChurnInput N) : N :=
  let startCustomers := startCustomers input in
  let churnedCustomers := churnedCustomers input in
  if strict_eq startCustomers (lit 0) then lit 0
  else mul (div churnedCustomers startCustomers) (lit 100).

Definition calculateRevenueChurnRate (input : RevenueChurnInput N) : N :=
  let startMRR := rc_startMRR input in
  let churnedMRR := rc_churnedMRR input in
  let contractionMRR := match rc_contractionMRR input with Some v => v | None => lit 0 end in
  if strict_eq startMRR (lit 0) then lit 0
  else mul (div (add churnedMRR contractionMRR) startMRR) (lit 100).

Definition calculateNRR (input : NRRInput N) : N :=
  let startMRR := startMRR input in
  let expansionMRR := match expansionMRR input with Some v => v | None => lit 0 end in
  let contractionMRR := match contractionMRR input with Some v => v | None => lit 0 end in
  let churnedMRR := churnedMRR input in
  if strict_eq startMRR (lit 0) then lit 0
  else
    let endMRR := sub (sub (add startMRR expansionMRR) contractionMRR) churnedMRR in
    mul (div endMRR startMRR) (lit 100).

Definition calculateGRR (input : NRRInput N) : N :=
  let startMRR := startMRR input in
  let contractionMRR := match contractionMRR input with Some v => v | None => lit 0 end in
  let churnedMRR := churnedMRR input in
  if strict_eq startMRR (lit 0) then lit 0
  else
    let retainedMRR := sub (sub startMRR contractionMRR) churnedMRR in
    mul (div retainedMRR startMRR) (lit 100).

(** The comparator [(a, b) => a.month - b.month]. *)
Definition by_month (a b : CohortDataPoint N) : N := sub (month a) (month b).

(** [[...cohorts].sort((a, b) => a.month - b.month)], on the contents *)
Definition sortedCohorts (cohorts : list (CohortDataPoint N)) : list (CohortDataPoint N) :=
  array_sort by_month cohorts.

(** [sortedCohorts[0]] exists when this point is reached: the copy has the
    length of [cohorts], which is not [0] (lemma [sortedCohorts_first]). *)
Definition calculateCohortRetention (cohorts : list (CohortDataPoint N)) : list N :=
  if Nat.eqb (List.length cohorts) 0 then []
  else
    let sortedCohorts := sortedCohorts cohorts in
    match sortedCohorts with
    | [] => []
    | first :: _ =>
      let baseCustomers := customers first in
      if strict_eq baseCustomers (lit 0) then map (fun _ => lit 0) sortedCohorts
      else map (fun cohort => mul (div (customers cohort) baseCustomers) (lit 100))
               sortedCohorts
    end.

(** The same function on the store: [cohorts] is a reference, the copy is
    a fresh array and only the copy is sorted. *)
Definition calculateCohortRetention_store
    (s : store (CohortDataPoint N)) (cohorts : ref) : store (CohortDataPoint N) * list N :=
  if Nat.eqb (List.length (deref s cohorts)) 0 then (s, [])
  else
    let '(s1, copy) := spread s cohorts in
    let '(s2, sortedCohorts) := sort_in_place by_month s1 copy in
    match deref s2 sortedCohorts with
    | [] => (s2, [])
    | first :: _ =>
      let baseCustomers := customers first in
      if strict_eq baseCustomers (lit 0)
      then (s2, map (fun _ => lit 0) (deref s2 sortedCohorts))
      else (s2, map (fun cohort => mul (div (customers cohort) baseCustomers) (lit 100))
                    (deref s2 sortedCohorts))
    end.

Definition calculateHistoricalLTV (customerRevenues : list N) : N :=
  if Nat.eqb (List.length customerRevenues) 0 then lit 0
  else
    let total := fold_left (fun sum revenue => add sum revenue) customerRevenues (lit 0) in
    div total (length_number customerRevenues).
End Functions.

(** ** The [LTVCalculator] class

    The instance fields are threaded explicitly; a chainable method returns
    the updated instance, a getter returns it with its result.  The
    [calculate*] methods neither read nor write a field. *)

Module LTVCalculator.
Section Class.
Context {N : Type} `{Arith N}.

Record t := {
  defaultNumberType : NumberType;
  averageDuration : N;
  arpu : N;
  ltv : N;
  churnRate : N
}.

(** [new LTVCalculator()] *)
Definition create : t := {|
  defaultNumberType := percentage;
  averageDuration := lit 0;
  arpu := lit 0;
  ltv := lit 0;
  churnRate := lit 0
|}.

Definition setARPU (arpu0 : N) (this : t) : t :=
  {| defaultNumberType := defaultNumberType this;
     averageDuration := averageDuration this;
     arpu := arpu0;
     ltv := ltv this;
     churnRate := churnRate this |}.

Definition calcARPU (sales user : N) (this : t) : t :=
  let arpu0 := div sales user in
  setARPU arpu0 this.

Definition getARPU (sales user : option N) (this : t) : t * N :=
  let this1 :=
    match sales, user with
    | Some s, Some u => if truthy s && truthy u then calcARPU s u this else this
    | _, _ => this
    end in
  (this1, arpu this1).

Definition setChurnRate (rate : N) (this : t) : t :=
  {| defaultNumberType := defaultNumberType this;
     averageDuration := averageDuration this;
     arpu := arpu this;
     ltv := ltv this;
     churnRate := rate |}.

Definition getChurnRate (this : t) : N := churnRate this.

Definition setAverageDuration (duration : N) (this : t) : t :=
  {| defaultNumberType := defaultNumberType this;
     averageDuration := duration;
     arpu := arpu this;
     ltv := ltv this;
     churnRate := churnRate this |}.

Definition calcAverageDurationByChurnRate
    (churnRate0 : option N) (type : option NumberType) (this : t) : t :=
  let type0 := match type with Some ty => ty | None => defaultNumberType this end in
  let rate :=
    match churnRate0 with
    | Some r => if truthy r then r else churnRate this
    | None => churnRate this
    end in
  setAverageDuration
    (match type0 with
     | percentage => div (lit 1) (div rate (lit 100))
     | number => div (lit 1) rate
     end) this.

Definition getAverageDurationByChurnRate
    (churnRate0 : option N) (type : option NumberType) (this : t) : t * N :=
  let this1 :=
    if truthy_arg churnRate0 then calcAverageDurationByChurnRate churnRate0 type this
    else this in
  (this1, averageDuration this1).

Definition calcLTV (averageDuration0 arpu0 : option N) (this : t) : t :=
  let d := match averageDuration0 with
           | Some v => if truthy v then v else averageDuration this
           | None => averageDuration this
           end in
  let a := match arpu0 with
           | Some v => if truthy v then v else arpu this
           | None => arpu this
           end in
  {| defaultNumberType := defaultNumberType this;
     averageDuration := averageDuration this;
     arpu := arpu this;
     ltv := mul d a;
     churnRate := churnRate this |}.

Definition getLTV (averageDuration0 arpu0 : option N) (this : t) : t * N :=
  let this1 := calcLTV averageDuration0 arpu0 this in
  (this1, ltv this1).

Definition calculateMRR (subscriptions : list (Subscription N)) : N :=
  fold_left (fun total sub0 =>
    let amount := amount sub0 in
    let interval := interval sub0 in
    if String.eqb interval "month"%string then add total amount
    else if String.eqb interval "year"%string then add total (div amount (lit 12))
    else if String.eqb interval "week"%string then
      add total (div (mul amount (lit 52)) (lit 12))
    else if String.eqb interval "day"%string then
      add total (div (mul amount (lit 365)) (lit 12))
    else total) subscriptions (lit 0).

Definition calculateARR (subscriptions : list (Subscription N)) : N :=
  mul (calculateMRR subscriptions) (lit 12).

Definition calculateCustomerChurnRate (input : CustomerChurnInput N) : N :=
  let startCustomers := startCustomers input in
  let churnedCustomers := churnedCustomers input in
  if strict_eq startCustomers (lit 0) then lit 0
  else mul (div churnedCustomers startCustomers) (lit 100).

Definition calculateRevenueChurnRate (input : RevenueChurnInput N) : N :=
  let startMRR := rc_startMRR input in
  let churnedMRR := rc_churnedMRR input in
  let contractionMRR := match rc_contractionMRR input with Some v => v | None => lit 0 end in
  if strict_eq startMRR (lit 0) then lit 0
  else mul (div (add churnedMRR contractionMRR) startMRR) (lit 100).

Definition calculateNRR (input : NRRInput N) : N :=
  let startMRR := startMRR input in
  let expansionMRR := match expansionMRR input with Some v => v | None => lit 0 end in
  let contractionMRR := match contractionMRR input with Some v => v | None => lit 0 end in
  let churnedMRR := churnedMRR input in
  if strict_eq startMRR (lit 0) then lit 0
  else
    let endMRR := sub (sub (add startMRR expansionMRR) contractionMRR) churnedMRR in
    mul (div endMRR startMRR) (lit 100).

Definition calculateGRR (input : NRRInput N) : N :=
  let startMRR := startMRR input in
  let contractionMRR := match contractionMRR input with Some v => v | None => lit 0 end in
  let churnedMRR := churnedMRR input in
  if strict_eq startMRR (lit 0) then lit 0
  else
    let retainedMRR := sub (sub startMRR contractionMRR) churnedMRR in
    mul (div retainedMRR startMRR) (lit 100).

Definition calculateCohortRetention (cohorts : list (CohortDataPoint N)) : list N :=
  if Nat.eqb (List.length cohorts) 0 then []
  else
    let sortedCohorts := array_sort (fun a b => sub (month a) (month b)) cohorts in
    match sortedCohorts with
    | [] => []
    | first :: _ =>
      let baseCustomers := customers first in
      if strict_eq baseCustomers (lit 0) then map (fun _ => lit 0) sortedCohorts
      else map (fun cohort => mul (div (customers cohort) baseCustomers) (lit 100))
               sortedCohorts
    end.

Definition calculateHistoricalLTV (customerRevenues : list N) : N :=
  if Nat.eqb (List.length customerRevenues) 0 then lit 0
  else
    let total := fold_left (fun sum revenue => add sum revenue) customerRevenues (lit 0) in
    div total (length_number customerRevenues).
End Class.
End LTVCalculator.

(** ** The formulas of the specification *)

Section Formulas.
Context {N : Type} `{Arith N}.

(** An absent optional amount counts as [0]. *)
Definition or_zero (x : option N) : N :=
  match x with Some v => v | None => lit 0 end.

(** [((startMRR + expansionMRR - contractionMRR - churnedMRR) / startMRR) * 100] *)
Definition NRR_formula (startMRR expansionMRR contractionMRR churnedMRR : N) : N :=
  mul (div (sub (sub (add startMRR expansionMRR) contractionMRR) churnedMRR) startMRR)
      (lit 100).

(** [{startMRR, churnedMRR, contractionMRR}] taken from an [NRRInput] *)
Definition revenue_churn_of (i : NRRInput N) : RevenueChurnInput N :=
  {| rc_startMRR := startMRR i;
     rc_churnedMRR := churnedMRR i;
     rc_contractionMRR := contractionMRR i |}.

(** The monthly equivalent of one subscription. *)
Definition contribution (s : Subscription N) : N :=
  if String.eqb (interval s) "month"%string then amount s
  else if String.eqb (interval s) "year"%string then div (amount s) (lit 12)
  else if String.eqb (interval s) "week"%string then div (mul (amount s) (lit 52)) (lit 12)
  else if String.eqb (interval s) "day"%string then div (mul (amount s) (lit 365)) (lit 12)
  else lit 0.

(** The sum of a sequence, accumulated from [0] in order. *)
Definition sum (l : list N) : N := fold_left add l (lit 0).

(** Sum divided by length. *)
Definition mean (l : list N) : N := div (sum l) (lit (Z.of_nat (List.length l))).

(** The retention percentages for cohorts [s] that are in month order, the
    input having [n] cohorts: the base is the customers of the first of
    [s]; for a base of [0] a sequence of [n] zeros, and otherwise
    [(customers / base) * 100] for every cohort of [s], in the order of [s]. *)
Definition retention_in_month_order (n : nat) (s : list (CohortDataPoint N)) : list N :=
  match s with
  | [] => []
  | earliest :: _ =>
    let base := customers earliest in
    if strict_eq base (lit 0) then repeat (lit 0) n
    else map (fun cohort => mul (div (customers cohort) base) (lit 100)) s
  end.
End Formulas.

(** ** Sorting by an integer key *)

Section SortByKey.
Variable A : Type.
Variable k : A -> Z.

Fixpoint insert_by_key (x : A) (l : list A) : list A :=
  match l with
  | [] => [x]
  | y :: l' => if k y <? k x then y :: insert_by_key x l' else x :: l
  end.

Definition sort_by_key (l : list A) : list A := fold_right insert_by_key [] l.

Definition le_key (a b : A) : Prop := k a <= k b.
Definition same_key (a c : A) : bool := k c =? k a.
End SortByKey.

(** ** Cohorts in month order *)

Section MonthOrder.
Import Binary64.

Definition month_key (c : CohortDataPoint float64) : Z := val (month c).

(** [a.month <= b.month] *)
Definition month_le (a b : CohortDataPoint float64) : Prop :=
  leb (month a) (month b) = true.

(** [c.month === m] *)
Definition in_month (m : float64) (c : CohortDataPoint float64) : bool :=
  eqb (month c) m.

(** [s] is [l] sorted ascending by month, cohorts of one month keeping the
    order they have in [l]. *)
Definition stable_sort_by_month (l s : list (CohortDataPoint float64)) : Prop :=
  Permutation l s /\
  Sorted month_le s /\
  forall m, filter (in_month m) s = filter (in_month m) l.

(** The month of a cohort is a number other than [NaN]. *)
Definition month_ok (c : CohortDataPoint float64) : Prop :=
  is_number (month c) = true /\ is_nan (month c) = false.

Definition months_are_numbers (l : list (CohortDataPoint float64)) : Prop :=
  Forall month_ok l.

(** No two cohorts have the same month. *)
Definition distinct_months (l : list (CohortDataPoint float64)) : Prop :=
  ForallOrdPairs (fun a b => eqb (month a) (month b) = false) l.
End MonthOrder.

(** ** Data of the test suite *)

Module TestData.
Import Binary64.
Definition sub_of (a : Z) (i : string) : Subscription float64 :=
  Build_Subscription (of_Z a) i.
Definition cohort (m c : Z) : CohortDataPoint float64 :=
  Build_CohortDataPoint (of_Z m) (of_Z c).
Definition nrr_input (s : Z) (e c : option Z) (ch : Z) : NRRInput float64 :=
  Build_NRRInput (of_Z s) None (option_map of_Z e) (option_map of_Z c) (of_Z ch).
(** [0.1], the double nearest to one tenth *)
Definition one_tenth : float64 := S754_finite false 7205759403792794 (-56).
End TestData.

(** ** Sequences of method calls

    The methods that take or return the instance; [getChurnRate] and the
    [calculate*] methods leave it as it is. *)

Module Calls.
Section Calls.
Context {N : Type} `{Arith N}.

Inductive call :=
| SetARPU (arpu : N)
| CalcARPU (sales user : N)
| GetARPU (sales user : option N)
| SetChurnRate (rate : N)
| CalcAverageDurationByChurnRate (churnRate : option N) (type : option NumberType)
| GetAverageDurationByChurnRate (churnRate : option N) (type : option NumberType)
| SetAverageDuration (duration : N)
| CalcLTV (averageDuration arpu : option N)
| GetLTV (averageDuration arpu : option N).

(** The instance after one call. *)
Definition run (c : call) (this : LTVCalculator.t) : LTVCalculator.t :=
  match c with
  | SetARPU a => LTVCalculator.setARPU a this
  | CalcARPU s u => LTVCalculator.calcARPU s u this
  | GetARPU s u => fst (LTVCalculator.getARPU s u this)
  | SetChurnRate r => LTVCalculator.setChurnRate r this
  | CalcAverageDurationByChurnRate r ty =>
      LTVCalculator.calcAverageDurationByChurnRate r ty this
  | GetAverageDurationByChurnRate r ty =>
      fst (LTVCalculator.getAverageDurationByChurnRate r ty this)
  | SetAverageDuration d => LTVCalculator.setAverageDuration d this
  | CalcLTV d a => LTVCalculator.calcLTV d a this
  | GetLTV d a => fst (LTVCalculator.getLTV d a this)
  end.

(** The instance after a sequence of calls, the first of the list first. *)
Definition run_all (cs : list call) (this : LTVCalculator.t) : LTVCalculator.t :=
  fold_left (fun this0 c => run c this0) cs this.

(** An instance obtained from [new LTVCalculator()] by method calls. *)
Definition reachable (this : LTVCalculator.t) : Prop :=
  exists cs : list call, this = run_all cs LTVCalculator.create.

(** The calls of the methods that assign [this.arpu], and of those that
    assign [this.averageDuration]. *)
Definition writes_arpu (c : call) : bool :=
  match c with
  | SetARPU _ | CalcARPU _ _ | GetARPU _ _ => true
  | _ => false
  end.

Definition writes_averageDuration (c : call) : bool :=
  match c with
  | SetAverageDuration _ | CalcAverageDurationByChurnRate _ _
  | GetAverageDurationByChurnRate _ _ => true
  | _ => false
  end.
End Calls.
End Calls.

(** ** Subscriptions and signs *)

(** The interval is one of the four the sum knows. *)
Definition known_interval (i : string) : bool :=
  String.eqb i "month" || String.eqb i "year" || String.eqb i "week" || String.eqb i "day".

(** [x >= 0]: false of [NaN]. *)
Definition non_negative (x : Binary64.float64) : bool :=
  Binary64.leb (S754_zero false) x.

(** * Properties *)

Unset Implicit Arguments.
Notation "# z" := (@lit Binary64.float64 binary64 z) (at level 1, format "# z").

(** The methods of the class compute what the exported functions compute. *)

Section ClassAndFunctions.
Context {N : Type} `{Arith N}.

Lemma class_calculateMRR_eq (subs : list (Subscription N)) :
  LTVCalculator.calculateMRR subs = calculateMRR subs.
Proof. reflexivity. Qed.

Lemma class_calculateARR_eq (subs : list (Subscription N)) :
  LTVCalculator.calculateARR subs = calculateARR subs.
Proof. reflexivity. Qed.

Lemma class_calculateCustomerChurnRate_eq (i : CustomerChurnInput N) :
  LTVCalculator.calculateCustomerChurnRate i = calculateCustomerChurnRate i.
Proof. reflexivity. Qed.

Lemma class_calculateRevenueChurnRate_eq (i : RevenueChurnInput N) :
  LTVCalculator.calculateRevenueChurnRate i = calculateRevenueChurnRate i.
Proof. reflexivity. Qed.

Lemma class_calculateNRR_eq (i : NRRInput N) :
  LTVCalculator.calculateNRR i = calculateNRR i.
Proof. reflexivity. Qed.

Lemma class_calculateGRR_eq (i : NRRInput N) :
  LTVCalculator.calculateGRR i = calculateGRR i.
Proof. reflexivity. Qed.

Lemma class_calculateCohortRetention_eq (l : list (CohortDataPoint N)) :
  LTVCalculator.calculateCohortRetention l = calculateCohortRetention l.
Proof. reflexivity. Qed.

Lemma class_calculateHistoricalLTV_eq (l : list N) :
  LTVCalculator.calculateHistoricalLTV l = calculateHistoricalLTV l.
Proof. reflexivity. Qed.
End ClassAndFunctions.

(** ** The test suite, evaluated in binary64 *)

Module Tests.
Import Binary64 TestData.

Example test_arpu : calculateARPU #100 #10 = #10.
Proof. vm_compute. reflexivity. Qed.

Example test_ltv_chain :
  snd (LTVCalculator.getLTV None None
         (LTVCalculator.calcAverageDurationByChurnRate (Some #10) None
            (LTVCalculator.calcARPU #100 #10 LTVCalculator.create))) = #100.
Proof. vm_compute. reflexivity. Qed.

Example test_getARPU :
  snd (LTVCalculator.getARPU (Some #100) (Some #10) LTVCalculator.create) = #10.
Proof. vm_compute. reflexivity. Qed.

Example test_average_duration_percentage :
  calculateAverageDuration #10 None = #10 /\
  calculateAverageDuration #10 (Some percentage) = #10.
Proof. split; vm_compute; reflexivity. Qed.

Example test_average_duration_number :
  calculateAverageDuration one_tenth (Some number) = #10.
Proof. vm_compute. reflexivity. Qed.

Example test_class_average_duration :
  snd (LTVCalculator.getAverageDurationByChurnRate (Some #10) None LTVCalculator.create) = #10 /\
  snd (LTVCalculator.getAverageDurationByChurnRate (Some one_tenth) (Some number)
         LTVCalculator.create) = #10.
Proof. split; vm_compute; reflexivity. Qed.

Example test_ltv : calculateLTV #10 #10 = #100.
Proof. vm_compute. reflexivity. Qed.

Example test_mrr_monthly :
  calculateMRR [sub_of 1000 "month"; sub_of 2000 "month"] = #3000.
Proof. vm_compute. reflexivity. Qed.

Example test_mrr_yearly : calculateMRR [sub_of 12000 "year"] = #1000.
Proof. vm_compute. reflexivity. Qed.

(** [1000 + 1000 + 52 * 52 / 12]: within [0.01] of [2225.33], that is
    between [222532 / 100] and [222534 / 100]. *)
Example test_mrr_mixed :
  let r := calculateMRR [sub_of 1000 "month"; sub_of 12000 "year"; sub_of 52 "week"] in
  ltb (div #222532 #100) r = true /\ ltb r (div #222534 #100) = true.
Proof. split; vm_compute; reflexivity. Qed.

Example test_arr : calculateARR [sub_of 1000 "month"] = #12000.
Proof. vm_compute. reflexivity. Qed.

Example test_customer_churn :
  calculateCustomerChurnRate (Build_CustomerChurnInput #100 #5) = #5 /\
  calculateCustomerChurnRate (Build_CustomerChurnInput #0 #5) = #0.
Proof. split; vm_compute; reflexivity. Qed.

(** The suite compares this one with [toBeCloseTo(7, 10)]: the result is
    the double just above [7]. *)
Example test_revenue_churn :
  calculateRevenueChurnRate (Build_RevenueChurnInput #10000 #500 (Some #200))
    = S754_finite false 7881299347898369 (-50) /\
  #7 = S754_finite false 7881299347898368 (-50) /\
  calculateRevenueChurnRate (Build_RevenueChurnInput #10000 #500 None) = #5.
Proof. repeat split; vm_compute; reflexivity. Qed.

Example test_nrr :
  calculateNRR (nrr_input 10000 (Some 1000) (Some 200) 300) = #105 /\
  calculateNRR (nrr_input 10000 None None 300) = #97 /\
  calculateNRR (nrr_input 0 None None 300) = #0.
Proof. repeat split; vm_compute; reflexivity. Qed.

Example test_grr :
  calculateGRR (nrr_input 10000 None (Some 200) 300) = #95 /\
  calculateGRR (nrr_input 0 None None 300) = #0.
Proof. split; vm_compute; reflexivity. Qed.

Example test_cohort_retention :
  calculateCohortRetention [cohort 0 100; cohort 1 90; cohort 2 85] = [#100; #90; #85] /\
  calculateCohortRetention [cohort 2 85; cohort 0 100; cohort 1 90] = [#100; #90; #85] /\
  calculateCohortRetention (N := float64) [] = [] /\
  calculateCohortRetention [cohort 0 0; cohort 1 0] = [#0; #0].
Proof. repeat split; vm_compute; reflexivity. Qed.

Example test_historical_ltv :
  calculateHistoricalLTV [#1000; #1200; #1500; #800; #2000] = #1300 /\
  calculateHistoricalLTV (N := float64) [] = #0 /\
  calculateHistoricalLTV [#1000] = #1000.
Proof. repeat split; vm_compute; reflexivity. Qed.
End Tests.

(** ** Binary64 arithmetic *)

Ltac destruct_bools := repeat match goal with s : bool |- _ => destruct s end.

Section Binary64Facts.
Import Binary64.

(** A positive number of [d] binary digits lies in [[2 ^ (d - 1), 2 ^ d)]. *)
Lemma digits2_pos_bounds (p : positive) :
  2 ^ (Zpos (digits2_pos p) - 1) <= Zpos p < 2 ^ Zpos (digits2_pos p).
Proof.
  induction p as [p IH | p IH |]; simpl digits2_pos; [| | simpl; lia].
  all: rewrite Pos2Z.inj_succ;
    replace (Z.succ (Zpos (digits2_pos p)) - 1) with (Zpos (digits2_pos p)) by lia;
    rewrite Z.pow_succ_r by lia;
    assert (E : 2 ^ Zpos (digits2_pos p) = 2 * 2 ^ (Zpos (digits2_pos p) - 1))
      by (rewrite <- Z.pow_succ_r by lia; f_equal; lia);
    lia.
Qed.

(** Shifting a mantissa right by one bit, and by [p] bits. *)
Lemma shr_1_m (mrs : shr_record) :
  0 <= shr_m mrs -> shr_m (shr_1 mrs) = shr_m mrs / 2.
Proof.
  destruct mrs as [m r s]; simpl. intros Hm.
  destruct m as [| p | p]; try lia; try reflexivity.
  destruct p as [p | p |]; try reflexivity.
  - simpl. apply Z.div_unique with (r := 1); lia.
  - simpl. apply Z.div_unique with (r := 0); lia.
Qed.

Lemma iter_pos_shr_1_m (p : positive) : forall mrs : shr_record,
  0 <= shr_m mrs -> shr_m (iter_pos shr_1 p mrs) = shr_m mrs / 2 ^ Zpos p.
Proof.
  induction p as [p IH | p IH |]; intros mrs Hm; simpl iter_pos.
  - assert (H1 : 0 <= shr_m (shr_1 mrs)) by (rewrite shr_1_m by lia; apply Z.div_pos; lia).
    assert (H2 : 0 <= shr_m (iter_pos shr_1 p (shr_1 mrs))).
    { rewrite IH by lia. apply Z.div_pos; [lia | apply Z.pow_pos_nonneg; lia]. }
    rewrite IH, IH, shr_1_m by lia.
    rewrite !Z.div_div by (try lia; apply Z.pow_pos_nonneg; lia).
    f_equal. rewrite (Pos2Z.inj_xI p).
    replace (2 * Zpos p + 1) with (1 + Zpos p + Zpos p) by lia.
    rewrite !Z.pow_add_r by lia. lia.
  - assert (H2 : 0 <= shr_m (iter_pos shr_1 p mrs)).
    { rewrite IH by lia. apply Z.div_pos; [lia | apply Z.pow_pos_nonneg; lia]. }
    rewrite IH, IH by lia.
    rewrite !Z.div_div by (try lia; apply Z.pow_pos_nonneg; lia).
    f_equal. rewrite (Pos2Z.inj_xO p).
    replace (2 * Zpos p) with (Zpos p + Zpos p) by lia.
    rewrite Z.pow_add_r by lia. reflexivity.
  - rewrite shr_1_m by lia. reflexivity.
Qed.

Lemma shr_record_of_loc_m m l : shr_m (shr_record_of_loc m l) = m.
Proof. destruct l as [| []]; reflexivity. Qed.

Lemma Zdigits2_bounds m : 0 < m -> 2 ^ (Zdigits2 m - 1) <= m < 2 ^ Zdigits2 m.
Proof. destruct m as [| p | p]; try lia. intros _. apply digits2_pos_bounds. Qed.

(** Truncation to the format keeps a magnitude non-negative and brings its
    exponent to [e_min] or above; a positive magnitude whose exponent is
    [e_min] or above stays positive. *)
Lemma shr_fexp_nonneg m e l :
  0 <= m ->
  0 <= shr_m (fst (shr_fexp prec emax m e l)) /\ e_min <= snd (shr_fexp prec emax m e l).
Proof.
  intros Hm. unfold shr_fexp, shr.
  destruct (fexp prec emax (Zdigits2 m + e) - e) as [| n | n] eqn:Hn; simpl fst; simpl snd;
    rewrite ?shr_record_of_loc_m; unfold fexp, emin, prec, emax, e_min in *; try (split; lia).
  split; [| lia].
  rewrite iter_pos_shr_1_m by (rewrite shr_record_of_loc_m; lia).
  rewrite shr_record_of_loc_m. apply Z.div_pos; [lia | apply Z.pow_pos_nonneg; lia].
Qed.

Lemma shr_fexp_pos m e l :
  0 < m -> e_min <= e ->
  0 < shr_m (fst (shr_fexp prec emax m e l)).
Proof.
  intros Hm He. unfold shr_fexp, shr.
  destruct (fexp prec emax (Zdigits2 m + e) - e) as [| n | n] eqn:Hn; simpl fst;
    rewrite ?shr_record_of_loc_m; try lia.
  rewrite iter_pos_shr_1_m by (rewrite shr_record_of_loc_m; lia).
  rewrite shr_record_of_loc_m.
  pose proof (Zdigits2_bounds m Hm) as [Hlo _].
  assert (Hle : Zpos n <= Zdigits2 m - 1)
    by (unfold fexp, emin, prec, emax, e_min in *; lia).
  assert (Hpow : 2 ^ Zpos n <= 2 ^ (Zdigits2 m - 1)) by (apply Z.pow_le_mono_r; lia).
  assert (H0 : 0 < 2 ^ Zpos n) by (apply Z.pow_pos_nonneg; lia).
  apply Z.div_str_pos. lia.
Qed.

Lemma round_nearest_even_ge m l : m <= round_nearest_even m l.
Proof. destruct l as [| []]; simpl; try lia. destruct (Z.even m); lia. Qed.

(** Rounding yields a zero, a finite number or an infinity of the given
    sign, and not a zero when the magnitude is positive and its exponent in
    range. *)
Lemma binary_round_aux_rounded s m e l :
  0 <= m -> rounded s (binary_round_aux prec emax s m e l).
Proof.
  intros Hm. unfold binary_round_aux.
  pose proof (shr_fexp_nonneg m e l Hm) as [H1 H1e].
  destruct (shr_fexp prec emax m e l) as [mrs' e'] eqn:E1. simpl in H1, H1e.
  pose proof (round_nearest_even_ge (shr_m mrs') (loc_of_shr_record mrs')) as Hr.
  assert (Hm2 : 0 <= round_nearest_even (shr_m mrs') (loc_of_shr_record mrs')) by lia.
  pose proof (shr_fexp_nonneg _ e' loc_Exact Hm2) as [H2 H2e].
  destruct (shr_fexp prec emax _ e' loc_Exact) as [mrs'' e''] eqn:E2. simpl in H2, H2e.
  destruct (shr_m mrs'') as [| p | p]; try lia.
  - constructor.
  - destruct (e'' <=? emax - prec); constructor; assumption.
Qed.

Lemma binary_round_aux_nonzero s m e l :
  0 < m -> e_min <= e -> rounded_nonzero s (binary_round_aux prec emax s m e l).
Proof.
  intros Hm He. unfold binary_round_aux.
  pose proof (shr_fexp_pos m e l Hm He) as H1.
  assert (Hm0 : 0 <= m) by lia.
  pose proof (shr_fexp_nonneg m e l Hm0) as [_ H1e].
  destruct (shr_fexp prec emax m e l) as [mrs' e'] eqn:E1. simpl in H1, H1e.
  pose proof (round_nearest_even_ge (shr_m mrs') (loc_of_shr_record mrs')) as Hr.
  assert (Hm2 : 0 < round_nearest_even (shr_m mrs') (loc_of_shr_record mrs')) by lia.
  pose proof (shr_fexp_pos _ e' loc_Exact Hm2 H1e) as H2.
  assert (Hm3 : 0 <= round_nearest_even (shr_m mrs') (loc_of_shr_record mrs')) by lia.
  pose proof (shr_fexp_nonneg _ e' loc_Exact Hm3) as [_ H2e].
  destruct (shr_fexp prec emax _ e' loc_Exact) as [mrs'' e''] eqn:E2. simpl in H2, H2e.
  destruct (shr_m mrs'') as [| p | p]; try lia.
  destruct (e'' <=? emax - prec); constructor; assumption.
Qed.

Lemma shl_align_exponent m e e' : e_min <= e -> e_min <= e' -> e_min <= snd (shl_align m e e').
Proof. intros. unfold shl_align. destruct (e' - e); simpl; lia. Qed.

Lemma binary_round_nonzero s m e :
  e_min <= e -> rounded_nonzero s (binary_round prec emax s m e).
Proof.
  intros He. unfold binary_round.
  assert (Hf : e_min <= fexp prec emax (Zpos (digits2_pos m) + e))
    by (unfold fexp, emin, prec, emax, e_min; lia).
  pose proof (shl_align_exponent m e _ He Hf) as Hs.
  destruct (shl_align m e _) as [mz ez]. simpl in Hs.
  apply binary_round_aux_nonzero; lia.
Qed.

Lemma binary_round_rounded s m e : rounded s (binary_round prec emax s m e).
Proof.
  unfold binary_round. destruct (shl_align m e _) as [mz ez].
  apply binary_round_aux_rounded; lia.
Qed.

Lemma huge_pos : 0 < huge.
Proof. unfold huge. apply Z.pow_pos_nonneg; lia. Qed.

Lemma bounded_inv m e :
  bounded prec emax m e = true ->
  e_min <= e <= 971 /\ Zpos (digits2_pos m) <= 53 /\ (e_min < e -> Zpos (digits2_pos m) = 53).
Proof.
  unfold bounded, canonical_mantissa, fexp, emin, prec, emax, e_min.
  intros H. apply andb_true_iff in H. destruct H as [H1 H2].
  apply Z.eqb_eq in H1. apply Z.leb_le in H2. lia.
Qed.

Lemma mag_pos m e : e_min <= e -> 0 < mag m e.
Proof. intros. unfold mag. apply Z.mul_pos_pos; [lia | apply Z.pow_pos_nonneg; lia]. Qed.

Lemma mag_lt_huge m e : bounded prec emax m e = true -> mag m e < huge.
Proof.
  intros H. apply bounded_inv in H. destruct H as [He [Hd _]].
  pose proof (digits2_pos_bounds m) as [_ Hm].
  assert (H53 : 2 ^ Zpos (digits2_pos m) <= 2 ^ 53) by (apply Z.pow_le_mono_r; lia).
  assert (Hp : 2 ^ (e - e_min) <= 2 ^ 2045) by (apply Z.pow_le_mono_r; unfold e_min in *; lia).
  assert (H0 : 0 < 2 ^ (e - e_min)) by (apply Z.pow_pos_nonneg; lia).
  unfold mag, huge.
  replace 2100 with (53 + 2045 + 2) by lia.
  rewrite !Z.pow_add_r by lia.
  assert (Hs : 0 < 2 ^ 53) by (apply Z.pow_pos_nonneg; lia).
  assert (Ht : 0 < 2 ^ 2045) by (apply Z.pow_pos_nonneg; lia).
  change (2 ^ 2) with 4. nia.
Qed.

Lemma shl_align_mag m e e' :
  e_min <= e' <= e -> mag (fst (shl_align m e e')) e' = mag m e.
Proof.
  intros He. unfold shl_align.
  destruct (e' - e) as [| d | d] eqn:Hd; simpl fst; try lia.
  - replace e' with e by lia. reflexivity.
  - unfold mag. fold (shift_pos d m). rewrite shift_pos_correct.
    change (Z.pow_pos 2 d) with (2 ^ Zpos d).
    replace (e - e_min) with (Zpos d + (e' - e_min)) by lia.
    rewrite Z.pow_add_r by lia. ring.
Qed.

Lemma is_positive_rounded_nonzero s x : rounded_nonzero s x -> is_positive x = negb s.
Proof. intros []; destruct s; reflexivity. Qed.

Lemma val_finite_lt x :
  is_number x = true -> match x with S754_infinity _ | S754_nan => True | _ => - huge < val x < huge end.
Proof.
  pose proof huge_pos.
  destruct x as [s | s | | s m e]; cbn [val cond_Zopp is_number valid_binary]; intros Hv; try lia.
  pose proof (mag_lt_huge m e Hv). apply bounded_inv in Hv. destruct Hv as [He _].
  pose proof (mag_pos m e (proj1 He)). destruct s; cbn [val cond_Zopp] in *; lia.
Qed.

(** The sign of a difference is the sign of the difference of the values:
    a nonzero exact difference does not round to zero. *)
Lemma sub_finite_sign sx mx ex sy my ey :
  e_min <= ex -> e_min <= ey ->
  is_positive (SFsub prec emax (S754_finite sx mx ex) (S754_finite sy my ey))
  = (cond_Zopp sy (mag my ey) <? cond_Zopp sx (mag mx ex)).
Proof.
  intros Hx Hy. unfold SFsub.
  set (ez := Z.min ex ey).
  assert (Hez : e_min <= ez) by (unfold ez; lia).
  rewrite <- (shl_align_mag mx ex ez) by (unfold ez; lia).
  rewrite <- (shl_align_mag my ey ez) by (unfold ez; lia).
  set (ax := fst (shl_align mx ex ez)). set (ay := fst (shl_align my ey ez)).
  assert (Hp : 0 < 2 ^ (ez - e_min)) by (apply Z.pow_pos_nonneg; lia).
  assert (Hval : forall s a, cond_Zopp s (mag a ez) = cond_Zopp s (Zpos a) * 2 ^ (ez - e_min)).
  { intros s a. unfold mag. destruct s; cbn [cond_Zopp]; ring. }
  rewrite !Hval.
  set (zx := cond_Zopp sx (Zpos ax)). set (zy := cond_Zopp sy (Zpos ay)).
  unfold binary_normalize.
  destruct (zx - zy) as [| p | p] eqn:Hz.
  - assert (zx = zy) by lia. subst zx. replace (cond_Zopp sx (Zpos ax)) with zy.
    rewrite Z.ltb_irrefl. reflexivity.
  - rewrite (is_positive_rounded_nonzero _ _ (binary_round_nonzero false p ez Hez)). simpl.
    symmetry. apply Z.ltb_lt. nia.
  - rewrite (is_positive_rounded_nonzero _ _ (binary_round_nonzero true p ez Hez)). simpl.
    symmetry. apply Z.ltb_ge. nia.
Qed.

Lemma sub_sign x y :
  is_number x = true -> is_number y = true -> is_nan x = false -> is_nan y = false ->
  is_positive (SFsub prec emax x y) = (val y <? val x).
Proof.
  intros Vx Vy Nx Ny.
  pose proof huge_pos as Hh.
  pose proof (val_finite_lt x Vx) as Bx. pose proof (val_finite_lt y Vy) as By.
  destruct x as [sx | sx | | sx mx ex]; try discriminate;
  destruct y as [sy | sy | | sy my ey]; try discriminate.
  all: try (cbn [val cond_Zopp] in Bx, By; symmetry;
            destruct_bools;
            cbv [SFsub is_positive ltb SFltb SFcompare]; cbn [val cond_Zopp] in *;
            first [ apply Z.ltb_lt; lia | apply Z.ltb_ge; lia ]).
  - apply bounded_inv in Vy. destruct Vy as [He _].
    pose proof (mag_pos my ey (proj1 He)).
    destruct sy; cbv [SFsub is_positive ltb SFltb SFcompare negb];
      cbn [val cond_Zopp]; symmetry;
      first [ apply Z.ltb_lt; lia | apply Z.ltb_ge; lia ].
  - apply bounded_inv in Vx. destruct Vx as [He _].
    pose proof (mag_pos mx ex (proj1 He)).
    destruct sx; cbv [SFsub is_positive ltb SFltb SFcompare negb];
      cbn [val cond_Zopp]; symmetry;
      first [ apply Z.ltb_lt; lia | apply Z.ltb_ge; lia ].
  - apply bounded_inv in Vx. apply bounded_inv in Vy.
    apply sub_finite_sign; lia.
Qed.

(** The comparison of numbers is the comparison of their values. *)
Lemma mag_compare m1 e1 m2 e2 :
  bounded prec emax m1 e1 = true -> bounded prec emax m2 e2 = true ->
  (mag m1 e1 ?= mag m2 e2) =
  match e1 ?= e2 with
  | Lt => Lt
  | Gt => Gt
  | Eq => Pos.compare_cont Eq m1 m2
  end.
Proof.
  assert (Hlt : forall a ea b eb,
    bounded prec emax a ea = true -> bounded prec emax b eb = true ->
    ea < eb -> mag a ea < mag b eb).
  { intros a ea b eb Ha Hb Hlt.
    apply bounded_inv in Ha. apply bounded_inv in Hb.
    destruct Ha as [Hea [Hda _]]. destruct Hb as [Heb [_ Hdb]].
    specialize (Hdb ltac:(lia)).
    pose proof (digits2_pos_bounds a) as [_ Hau].
    pose proof (digits2_pos_bounds b) as [Hbl _].
    rewrite Hdb in Hbl.
    assert (H53 : 2 ^ Zpos (digits2_pos a) <= 2 ^ 53) by (apply Z.pow_le_mono_r; lia).
    unfold mag.
    replace (eb - e_min) with ((eb - ea - 1) + (1 + (ea - e_min))) by lia.
    rewrite Z.pow_add_r, (Z.pow_add_r 2 1) by lia.
    change (2 ^ 53) with (2 * 2 ^ (53 - 1)) in H53.
    assert (Hp : 0 < 2 ^ (ea - e_min)) by (apply Z.pow_pos_nonneg; lia).
    assert (Hq : 1 <= 2 ^ (eb - ea - 1)).
    { change 1 with (2 ^ 0) at 1. apply Z.pow_le_mono_r; lia. }
    change (2 ^ 1) with 2.
    set (P := 2 ^ (ea - e_min)) in *. set (Q := 2 ^ (eb - ea - 1)) in *.
    set (T := 2 ^ (53 - 1)) in *.
    assert (Zpos a < 2 * T) by lia.
    assert (Zpos a * P < 2 * T * P) by nia.
    assert (HT : T <= Zpos b) by exact Hbl.
    assert (T * P <= Zpos b * P) by nia.
    assert (0 < Zpos b * P) by nia.
    assert (Zpos b * P <= Zpos b * P * Q) by nia.
    replace (Zpos b * (Q * (2 * P))) with (2 * (Zpos b * P * Q)) by ring.
    lia. }
  intros H1 H2. destruct (Z.compare_spec e1 e2) as [He | He | He].
  - subst e2. unfold mag.
    change (Pos.compare_cont Eq m1 m2) with (Zpos m1 ?= Zpos m2).
    apply bounded_inv in H1.
    assert (Hp : 0 < 2 ^ (e1 - e_min)) by (apply Z.pow_pos_nonneg; lia).
    destruct (Z.compare_spec (Zpos m1) (Zpos m2)) as [E | E | E].
    + rewrite E. apply Z.compare_refl.
    + apply Z.compare_lt_iff. nia.
    + apply Z.compare_gt_iff. nia.
  - apply Z.compare_lt_iff. apply Hlt; assumption.
  - apply Z.compare_gt_iff. apply Hlt; assumption.
Qed.

Lemma compare_val x y :
  is_number x = true -> is_number y = true -> is_nan x = false -> is_nan y = false ->
  SFcompare x y = Some (val x ?= val y).
Proof.
  intros Vx Vy Nx Ny.
  pose proof huge_pos as Hh.
  pose proof (val_finite_lt x Vx) as Bx. pose proof (val_finite_lt y Vy) as By.
  destruct x as [sx | sx | | sx mx ex]; try discriminate;
  destruct y as [sy | sy | | sy my ey]; try discriminate.
  all: cbn [is_number valid_binary] in Vx, Vy.
  all: try (pose proof (mag_pos mx ex (proj1 (proj1 (bounded_inv mx ex Vx)))) as Px).
  all: try (pose proof (mag_pos my ey (proj1 (proj1 (bounded_inv my ey Vy)))) as Py).
  all: cbn [val cond_Zopp SFcompare] in *.
  9:{ pose proof (mag_compare mx ex my ey Vx Vy) as Hc.
       pose proof (mag_compare my ey mx ex Vy Vx) as Hc'.
       f_equal. destruct sx, sy; cbn [cond_Zopp].
       - rewrite Z.compare_opp. rewrite Hc'.
         rewrite (Z.compare_antisym ey ex). rewrite (Pos.compare_cont_antisym).
         destruct (ey ?= ex); reflexivity.
       - symmetry. apply Z.compare_lt_iff. lia.
       - symmetry. apply Z.compare_gt_iff. lia.
       - symmetry. exact Hc. }
  all: f_equal; symmetry;
       repeat match goal with s : bool |- _ => destruct s end; cbn [cond_Zopp] in *;
       first [ apply Z.compare_refl | apply Z.compare_lt_iff; lia | apply Z.compare_gt_iff; lia ].
Qed.

(** A finite number divided by itself is [1]. *)
Lemma div_core_self m e :
  SFdiv_core_binary prec emax (Zpos m) e (Zpos m) e = (2 ^ 53, -53, loc_Exact).
Proof.
  unfold SFdiv_core_binary. cbv zeta.
  replace (Zdigits2 (Zpos m) + e - (Zdigits2 (Zpos m) + e)) with 0 by lia.
  rewrite Z.sub_diag.
  change (Z.min (fexp prec emax 0) 0) with (-53).
  change (0 - -53) with 53.
  assert (Hd : Z.div_eucl (Z.shiftl (Zpos m) 53) (Zpos m) = (2 ^ 53, 0)).
  { rewrite Z.shiftl_mul_pow2 by lia.
    pose proof (Z.div_eucl_eq (Zpos m * 2 ^ 53) (Zpos m) ltac:(lia)) as Heq.
    pose proof (Z.mod_pos_bound (Zpos m * 2 ^ 53) (Zpos m) ltac:(lia)) as Hmod.
    unfold Z.modulo in Hmod.
    destruct (Z.div_eucl (Zpos m * 2 ^ 53) (Zpos m)) as [q r].
    assert (Hr : r = 0).
    { assert (Hk : Zpos m * (2 ^ 53 - q) = r) by lia.
      assert (Hc : 2 ^ 53 - q = 0 \/ 2 ^ 53 - q >= 1 \/ 2 ^ 53 - q <= -1) by lia.
      destruct Hc as [Hc | [Hc | Hc]]; nia. }
    subst r. f_equal. nia. }
  cbv iota. rewrite Hd. unfold new_location, new_location_even, new_location_odd.
  destruct (Z.even (Zpos m)); reflexivity.
Qed.

Lemma div_self s m e :
  SFdiv prec emax (S754_finite s m e) (S754_finite s m e) = of_Z 1.
Proof.
  unfold SFdiv. rewrite div_core_self. rewrite xorb_nilpotent.
  vm_compute. reflexivity.
Qed.

(** The results of the operations have their exponents in range. *)
Lemma rounded_ranged s x : rounded s x -> ranged x.
Proof. intros []; simpl; auto. Qed.

Lemma is_number_ranged x : is_number x = true -> ranged x.
Proof.
  destruct x as [| | | s m e]; simpl; auto. intros H. apply bounded_inv in H. lia.
Qed.

Lemma binary_normalize_ranged z e szero : ranged (binary_normalize prec emax z e szero).
Proof.
  destruct z; simpl; auto; eapply rounded_ranged; apply binary_round_rounded.
Qed.

Lemma add_ranged x y : ranged x -> ranged y -> ranged (SFadd prec emax x y).
Proof.
  destruct x as [sx | sx | | sx mx ex], y as [sy | sy | | sy my ey]; intros Hx Hy;
    try (destruct_bools; simpl in *; auto; fail).
  unfold SFadd. apply binary_normalize_ranged.
Qed.

Lemma div_ranged x y : ranged (SFdiv prec emax x y).
Proof.
  destruct x as [sx | sx | | sx mx ex], y as [sy | sy | | sy my ey];
    try (simpl; auto; fail).
  unfold SFdiv.
  destruct (SFdiv_core_binary prec emax (Zpos mx) ex (Zpos my) ey) as [[mz ez] lz] eqn:E.
  eapply rounded_ranged. apply binary_round_aux_rounded.
  unfold SFdiv_core_binary in E.
  match type of E with context [Z.div_eucl ?a ?b] =>
    pose proof (Z.div_eucl_eq a b ltac:(lia)) as Heq;
    pose proof (Z.mod_pos_bound a b ltac:(lia)) as Hmod;
    assert (Ha : 0 <= a);
    [| unfold Z.modulo in Hmod; destruct (Z.div_eucl a b) as [q r] ]
  end.
  { match goal with |- 0 <= match ?s with _ => _ end => destruct s end; try lia.
    apply Z.shiftl_nonneg. lia. }
  inversion E; subst. nia.
Qed.

(** A sum is [-0] only if both terms are. *)
Lemma add_not_neg_zero x y :
  ranged x -> ranged y -> x <> neg_zero -> SFadd prec emax x y <> neg_zero.
Proof.
  unfold neg_zero.
  destruct x as [sx | sx | | sx mx ex], y as [sy | sy | | sy my ey]; intros Hx Hy Hn;
    try (destruct_bools; simpl; congruence).
  unfold SFadd. set (ez := Z.min ex ey). simpl in Hx, Hy.
  assert (Hez : e_min <= ez) by (unfold ez; lia).
  unfold binary_normalize.
  match goal with |- match ?z with _ => _ end <> _ => destruct z as [| p | p] end.
  - discriminate.
  - destruct (binary_round_nonzero false p ez Hez); discriminate.
  - destruct (binary_round_nonzero true p ez Hez); discriminate.
Qed.

Lemma add_zero_r x : x <> neg_zero -> SFadd prec emax x (S754_zero false) = x.
Proof. unfold neg_zero. destruct x as [[] | | |]; simpl; congruence. Qed.
End Binary64Facts.

(** ** Stable sorting by key *)

Section SortByKeyFacts.
Variable A : Type.
Variable k : A -> Z.

Lemma insert_by_key_perm x l : Permutation (x :: l) (insert_by_key k x l).
Proof.
  induction l as [| y l IH]; simpl; [reflexivity |].
  destruct (k y <? k x); [| reflexivity].
  rewrite perm_swap. constructor. exact IH.
Qed.

Lemma sort_by_key_perm l : Permutation l (sort_by_key k l).
Proof.
  induction l as [| x l IH]; simpl; [constructor |].
  rewrite <- insert_by_key_perm. constructor. exact IH.
Qed.

Lemma insert_by_key_sorted x l :
  StronglySorted (le_key k) l -> StronglySorted (le_key k) (insert_by_key k x l).
Proof.
  induction 1 as [| y l Hs IH Hy]; simpl.
  - repeat constructor.
  - destruct (k y <? k x) eqn:E.
    + constructor; [exact IH |].
      apply Z.ltb_lt in E.
      eapply Permutation_Forall; [apply insert_by_key_perm |].
      constructor; [unfold le_key; lia | exact Hy].
    + apply Z.ltb_ge in E. constructor; [constructor; assumption |].
      constructor; [exact E |].
      eapply Forall_impl; [| exact Hy]. unfold le_key. intros; lia.
Qed.

Lemma sort_by_key_sorted l : StronglySorted (le_key k) (sort_by_key k l).
Proof.
  induction l; simpl; [constructor | apply insert_by_key_sorted; assumption].
Qed.

Lemma insert_by_key_filter c x l :
  filter (same_key k c) (insert_by_key k x l) = filter (same_key k c) (x :: l).
Proof.
  induction l as [| y l IH]; [reflexivity |].
  simpl insert_by_key. destruct (k y <? k x) eqn:E; [| reflexivity].
  apply Z.ltb_lt in E. simpl filter in *.
  rewrite IH. unfold same_key.
  destruct (k x =? k c) eqn:Ex, (k y =? k c) eqn:Ey; try reflexivity.
  apply Z.eqb_eq in Ex, Ey. lia.
Qed.

Lemma sort_by_key_stable c l : filter (same_key k c) (sort_by_key k l) = filter (same_key k c) l.
Proof.
  induction l as [| x l IH]; [reflexivity |].
  simpl sort_by_key. rewrite insert_by_key_filter. simpl. rewrite IH. reflexivity.
Qed.

Lemma sorted_stable_unique s1 : forall s2,
  StronglySorted (le_key k) s1 -> StronglySorted (le_key k) s2 ->
  (forall c, In c s1 \/ In c s2 -> filter (same_key k c) s1 = filter (same_key k c) s2) ->
  s1 = s2.
Proof.
  induction s1 as [| a t1 IH]; intros s2 H1 H2 Hf.
  - destruct s2 as [| b t2]; [reflexivity |].
    specialize (Hf b (or_intror (or_introl eq_refl))).
    simpl in Hf. unfold same_key in Hf. rewrite Z.eqb_refl in Hf. discriminate.
  - pose proof (Hf a (or_introl (or_introl eq_refl))) as Ha.
    simpl in Ha. unfold same_key in Ha at 1. rewrite Z.eqb_refl in Ha.
    destruct s2 as [| b t2]; [discriminate |].
    inversion H1 as [| ? ? S1 F1]; subst. inversion H2 as [| ? ? S2 F2]; subst.
    assert (Hab : k b <= k a).
    { assert (Hin : In a (b :: t2)).
      { eapply (proj1 (filter_In (same_key k a) a (b :: t2))). rewrite <- Ha. left; reflexivity. }
      destruct Hin as [-> | Hin]; [lia |].
      rewrite Forall_forall in F2. apply F2. exact Hin. }
    assert (Hba : k a <= k b).
    { pose proof (Hf b (or_intror (or_introl eq_refl))) as Hb.
      assert (Hin : In b (a :: t1)).
      { eapply (proj1 (filter_In (same_key k b) b (a :: t1))). rewrite Hb.
        simpl. unfold same_key at 1. rewrite Z.eqb_refl. left; reflexivity. }
      destruct Hin as [-> | Hin]; [lia |].
      rewrite Forall_forall in F1. apply F1. exact Hin. }
    assert (Hk : k b = k a) by lia.
    simpl in Ha. unfold same_key in Ha at 2. rewrite Hk, Z.eqb_refl in Ha.
    injection Ha as Hab' _. subst b. f_equal.
    apply IH; try assumption.
    intros c Hc.
    assert (Hc' : In c (a :: t1) \/ In c (a :: t2)) by (simpl; tauto).
    specialize (Hf c Hc'). simpl in Hf.
    destruct (same_key k c a); [injection Hf; auto | exact Hf].
Qed.

Lemma filter_same_k_short c l :
  NoDup (map k l) -> (List.length (filter (same_key k c) l) <= 1)%nat.
Proof.
  induction l as [| x l IH]; simpl; intros Hn; [lia |].
  inversion Hn as [| ? ? Hx Hl]; subst. specialize (IH Hl).
  unfold same_key at 1. destruct (k x =? k c) eqn:E; [| lia].
  apply Z.eqb_eq in E. simpl.
  destruct (filter (same_key k c) l) as [| y t] eqn:F; [simpl; lia |].
  exfalso. apply Hx.
  assert (Hy : In y (filter (same_key k c) l)) by (rewrite F; left; reflexivity).
  apply filter_In in Hy. destruct Hy as [Hy Hk]. unfold same_key in Hk.
  apply Z.eqb_eq in Hk. rewrite E, <- Hk. apply in_map. exact Hy.
Qed.

Lemma sort_by_key_perm_distinct l l' :
  Permutation l l' -> NoDup (map k l) -> sort_by_key k l' = sort_by_key k l.
Proof.
  intros Hp Hn.
  apply sorted_stable_unique; try apply sort_by_key_sorted.
  intros c _. rewrite !sort_by_key_stable.
  assert (Hpf : Permutation (filter (same_key k c) l') (filter (same_key k c) l)).
  { symmetry. clear Hn. induction Hp; simpl.
    - constructor.
    - destruct (same_key k c x); [constructor |]; assumption.
    - destruct (same_key k c x), (same_key k c y); try reflexivity. apply perm_swap.
    - etransitivity; eassumption. }
  pose proof (filter_same_k_short c l Hn) as Hs.
  destruct (filter (same_key k c) l) as [| y [| z t]]; simpl in Hs; try lia.
  - apply Permutation_nil. symmetry. exact Hpf.
  - apply Permutation_length_1_inv. symmetry. exact Hpf.
Qed.
End SortByKeyFacts.

(** ** The comparator of the cohort sort *)

Section ArraySort.
Context {N : Type} `{Arith N}.
Variable A : Type.
Variable k : A -> Z.
Variable cmp : A -> A -> N.
Variable P : A -> Prop.
Hypothesis cmp_key : forall x y, P x -> P y -> is_pos (cmp x y) = (k y <? k x).

Lemma sort_insert_by_key x l :
  P x -> Forall P l -> sort_insert cmp x l = insert_by_key k x l.
Proof.
  intros Hx Hl. induction Hl as [| y l Hy Hl IH]; [reflexivity |].
  simpl. rewrite (cmp_key x y Hx Hy), IH. reflexivity.
Qed.

Lemma array_sort_by_key l :
  Forall P l -> array_sort cmp l = sort_by_key k l.
Proof.
  induction 1 as [| x l Hx Hl IH]; [reflexivity |].
  simpl. rewrite IH. apply sort_insert_by_key; [exact Hx |].
  eapply Permutation_Forall; [apply sort_by_key_perm | exact Hl].
Qed.
End ArraySort.

Section ArraySortShape.
Context {N : Type} `{Arith N}.
Variable A : Type.
Variable cmp : A -> A -> N.

Lemma sort_insert_perm x l : Permutation (x :: l) (sort_insert cmp x l).
Proof.
  induction l as [| y l IH]; simpl; [reflexivity |].
  destruct (is_pos (cmp x y)); [| reflexivity].
  rewrite perm_swap. constructor. exact IH.
Qed.

Lemma array_sort_perm l : Permutation l (array_sort cmp l).
Proof.
  induction l as [| x l IH]; simpl; [constructor |].
  rewrite <- sort_insert_perm. constructor. exact IH.
Qed.

Lemma array_sort_length l : List.length (array_sort cmp l) = List.length l.
Proof. symmetry. apply Permutation_length, array_sort_perm. Qed.
End ArraySortShape.

(** The sorted copy of a non-empty array has a first element. *)
Lemma sortedCohorts_first {N : Type} `{Arith N} (cohorts : list (CohortDataPoint N)) :
  Nat.eqb (List.length cohorts) 0 = false ->
  exists first rest, sortedCohorts cohorts = first :: rest.
Proof.
  intros Hlen. pose proof (array_sort_length _ by_month cohorts) as Hs.
  fold (sortedCohorts cohorts) in Hs.
  destruct (sortedCohorts cohorts) as [| first rest]; [| eauto].
  simpl in Hs. rewrite <- Hs in Hlen. discriminate Hlen.
Qed.

Section MonthOrderFacts.
Import Binary64.

Lemma leb_val x y :
  is_number x = true -> is_number y = true -> is_nan x = false -> is_nan y = false ->
  leb x y = (val x <=? val y).
Proof.
  intros Vx Vy Nx Ny. unfold leb, SFleb. rewrite (compare_val x y Vx Vy Nx Ny).
  unfold Z.leb. destruct (val x ?= val y); reflexivity.
Qed.

Lemma eqb_val x y :
  is_number x = true -> is_number y = true -> is_nan x = false -> is_nan y = false ->
  eqb x y = (val x =? val y).
Proof.
  intros Vx Vy Nx Ny. unfold eqb, SFeqb. rewrite (compare_val x y Vx Vy Nx Ny).
  unfold Z.eqb. destruct (val x) as [| p | p], (val y) as [| q | q]; simpl; try reflexivity.
  - destruct (Pos.compare_spec p q); subst; try rewrite Pos.eqb_refl; try reflexivity;
      symmetry; apply Pos.eqb_neq; lia.
  - rewrite <- Pos.compare_antisym. destruct (Pos.compare_spec q p); subst;
      try rewrite Pos.eqb_refl; try reflexivity; symmetry; apply Pos.eqb_neq; lia.
Qed.

Lemma by_month_key a b :
  month_ok a -> month_ok b ->
  is_pos (by_month a b) = (month_key b <? month_key a).
Proof.
  intros [Va Na] [Vb Nb]. unfold by_month, month_key.
  exact (sub_sign (month a) (month b) Va Vb Na Nb).
Qed.

Lemma sortedCohorts_by_key l :
  months_are_numbers l -> sortedCohorts l = sort_by_key month_key l.
Proof.
  intros Hl. unfold sortedCohorts.
  apply (array_sort_by_key _ month_key by_month month_ok by_month_key). exact Hl.
Qed.
End MonthOrderFacts.

Section StableFilter.
Variable A : Type.
Variable k : A -> Z.
Variable f : A -> bool.
Hypothesis f_one_key : forall x y, f x = true -> f y = true -> k x = k y.

Lemma insert_by_key_filter_class x l :
  filter f (insert_by_key k x l) = filter f (x :: l).
Proof.
  induction l as [| y l IH]; [reflexivity |].
  simpl insert_by_key. destruct (k y <? k x) eqn:E; [| reflexivity].
  apply Z.ltb_lt in E. simpl filter in *. rewrite IH.
  destruct (f x) eqn:Fx, (f y) eqn:Fy; try reflexivity.
  pose proof (f_one_key x y Fx Fy). lia.
Qed.

Lemma sort_by_key_filter_class l : filter f (sort_by_key k l) = filter f l.
Proof.
  induction l as [| x l IH]; [reflexivity |].
  simpl sort_by_key. rewrite insert_by_key_filter_class. simpl. rewrite IH. reflexivity.
Qed.
End StableFilter.

Section SortedOn.
Variable A : Type.
Variables R R' : A -> A -> Prop.
Variable P : A -> Prop.
Hypothesis R_R' : forall x y, P x -> P y -> R x y -> R' x y.

Lemma Sorted_on l : Forall P l -> Sorted R l -> Sorted R' l.
Proof.
  intros HP HS. induction HS as [| x l HS IH Hd]; [constructor |].
  inversion HP as [| ? ? Px Pl]; subst. constructor; [apply IH; exact Pl |].
  destruct Hd as [| y l' Hxy]; constructor.
  inversion Pl; subst. apply R_R'; assumption.
Qed.
End SortedOn.

Section StableSortByMonth.
Import Binary64.

Lemma eqb_true_val x m : eqb x m = true -> val x = val m.
Proof.
  unfold eqb, SFeqb.
  destruct x as [sx | sx | | sx mx ex], m as [sm | sm | | sm mm em];
    cbn [SFcompare val]; destruct_bools; try discriminate; try reflexivity.
  all: destruct (Z.compare_spec ex em); try discriminate; subst;
       destruct (PosDef.Pos.compare_cont Eq mx mm) eqn:Ec; try discriminate;
       apply (Pos.compare_eq mx mm) in Ec; subst; reflexivity.
Qed.

Lemma in_month_one_key m x y :
  in_month m x = true -> in_month m y = true -> month_key x = month_key y.
Proof.
  unfold in_month, month_key. intros Hx Hy.
  rewrite (eqb_true_val _ _ Hx), (eqb_true_val _ _ Hy). reflexivity.
Qed.

Lemma in_month_same_key c s :
  month_ok c -> months_are_numbers s ->
  filter (in_month (month c)) s = filter (same_key month_key c) s.
Proof.
  intros [Vc Nc] Hs. apply filter_ext_in. intros x Hx.
  unfold months_are_numbers in Hs. rewrite Forall_forall in Hs.
  destruct (Hs x Hx) as [Vx Nx].
  unfold in_month, same_key, month_key. apply eqb_val; assumption.
Qed.

Lemma le_key_month_le x y : month_ok x -> month_ok y -> le_key month_key x y -> month_le x y.
Proof.
  intros [Vx Nx] [Vy Ny]. unfold le_key, month_le, month_key. intros Hle.
  rewrite (leb_val _ _ Vx Vy Nx Ny). apply Z.leb_le. exact Hle.
Qed.

Lemma month_le_le_key x y : month_ok x -> month_ok y -> month_le x y -> le_key month_key x y.
Proof.
  intros [Vx Nx] [Vy Ny]. unfold le_key, month_le, month_key. intros Hle.
  rewrite (leb_val _ _ Vx Vy Nx Ny) in Hle. apply Z.leb_le. exact Hle.
Qed.

Lemma months_are_numbers_perm l s :
  Permutation l s -> months_are_numbers l -> months_are_numbers s.
Proof. intros Hp Hl. exact (Permutation_Forall Hp Hl). Qed.

Lemma le_key_transitive (A : Type) (k : A -> Z) : Relations_1.Transitive (le_key k).
Proof. intros x y z. unfold le_key. lia. Qed.

(** On months that are numbers, the program's sort is a stable ascending
    sort by month. *)
Lemma sortedCohorts_stable_sort l :
  months_are_numbers l -> stable_sort_by_month l (sortedCohorts l).
Proof.
  intros Hl. rewrite (sortedCohorts_by_key l Hl).
  pose proof (sort_by_key_perm _ month_key l) as Hp.
  split; [exact Hp | split].
  - apply (Sorted_on _ (le_key month_key) month_le month_ok le_key_month_le).
    + exact (months_are_numbers_perm _ _ Hp Hl).
    + apply StronglySorted_Sorted, sort_by_key_sorted.
  - intros m. apply sort_by_key_filter_class. apply in_month_one_key.
Qed.

(** ... and the only one. *)
Lemma stable_sort_by_month_unique l s :
  months_are_numbers l -> stable_sort_by_month l s -> s = sortedCohorts l.
Proof.
  intros Hl (Hp & Hs & Hf). rewrite (sortedCohorts_by_key l Hl).
  pose proof (months_are_numbers_perm _ _ Hp Hl) as Hsn.
  pose proof (sort_by_key_perm _ month_key l) as Hp'.
  pose proof (months_are_numbers_perm _ _ Hp' Hl) as Hkn.
  apply (sorted_stable_unique _ month_key).
  - apply Sorted_StronglySorted; [apply le_key_transitive |].
    exact (Sorted_on _ month_le (le_key month_key) month_ok month_le_le_key s Hsn Hs).
  - apply sort_by_key_sorted.
  - intros c Hc.
    assert (Hok : month_ok c).
    { destruct Hc as [Hc | Hc].
      - unfold months_are_numbers in Hsn. rewrite Forall_forall in Hsn. auto.
      - unfold months_are_numbers in Hkn. rewrite Forall_forall in Hkn. auto. }
    rewrite <- (in_month_same_key c s Hok Hsn).
    rewrite <- (in_month_same_key c _ Hok Hkn).
    rewrite Hf. symmetry. apply sort_by_key_filter_class. apply in_month_one_key.
Qed.
End StableSortByMonth.

(** ** The store *)

Section StoreFacts.
Variable A : Type.

Lemma deref_spread_old (s : store A) (r r' : ref) :
  (r' < List.length s)%nat -> deref (fst (spread s r)) r' = deref s r'.
Proof. intros Hr. unfold spread, deref. simpl. apply app_nth1. exact Hr. Qed.

Lemma deref_spread_new (s : store A) (r : ref) :
  deref (fst (spread s r)) (snd (spread s r)) = deref s r.
Proof.
  unfold spread, deref. simpl. rewrite app_nth2 by lia.
  rewrite Nat.sub_diag. reflexivity.
Qed.

Lemma deref_assign_same (s : store A) : forall (r : ref) (a : list A),
  (r < List.length s)%nat -> deref (assign s r a) r = a.
Proof.
  induction s as [| b s IH]; intros [| r] a Hr; simpl in *; try lia; try reflexivity.
  apply IH. lia.
Qed.

Lemma deref_assign_other (s : store A) : forall (r r' : ref) (a : list A),
  r' <> r -> deref (assign s r a) r' = deref s r'.
Proof.
  induction s as [| b s IH]; intros [| r] [| r'] a Hr; simpl; try reflexivity; try lia.
  apply IH. lia.
Qed.
End StoreFacts.

Section CohortStore.
Context {N : Type} `{Arith N}.

(** On the store the function returns what it returns on the contents of
    its argument, and leaves every array that existed before the call as it
    was: the array it sorts is the copy. *)
Lemma calculateCohortRetention_store_pure
    (s : store (CohortDataPoint N)) (cohorts : ref) :
  snd (calculateCohortRetention_store s cohorts)
    = calculateCohortRetention (deref s cohorts) /\
  forall r : ref, (r < List.length s)%nat ->
    deref (fst (calculateCohortRetention_store s cohorts)) r = deref s r.
Proof.
  unfold calculateCohortRetention_store, calculateCohortRetention.
  destruct (Nat.eqb (List.length (deref s cohorts)) 0); [split; reflexivity |].
  pose proof (deref_spread_new _ s cohorts) as Hnew.
  assert (Hold : forall r, (r < List.length s)%nat ->
            deref (fst (spread s cohorts)) r = deref s r)
    by (intros r Hr; apply deref_spread_old; exact Hr).
  destruct (spread s cohorts) as [s1 copy] eqn:Es. cbn [fst snd] in Hnew, Hold.
  assert (Hcopy : copy = List.length s) by (unfold spread in Es; congruence).
  assert (Hlen : List.length s1 = S (List.length s)).
  { unfold spread in Es. injection Es as <- _. rewrite length_app. simpl. lia. }
  unfold sort_in_place.
  rewrite (deref_assign_same _ s1 copy) by lia.
  rewrite Hnew. fold (sortedCohorts (deref s cohorts)).
  assert (Hkeep : forall r, (r < List.length s)%nat ->
            deref (assign s1 copy (sortedCohorts (deref s cohorts))) r = deref s r).
  { intros r Hr. rewrite deref_assign_other by lia. apply Hold. exact Hr. }
  destruct (sortedCohorts (deref s cohorts)) as [| first rest]; [split; [reflexivity | exact Hkeep] |].
  destruct (strict_eq (customers first) (lit 0)); split; try reflexivity; exact Hkeep.
Qed.
End CohortStore.

(** * The claims *)

Import Binary64.

(** [x === 0] holds of the two zeros and of nothing else. *)
Lemma strict_eq_zero (x : float64) :
  strict_eq x #0 = true <-> x = S754_zero false \/ x = S754_zero true.
Proof.
  split.
  - destruct x as [[] | [] | | [] m e]; simpl; intros E; try discriminate E; auto.
  - intros [-> | ->]; reflexivity.
Qed.

(** ** NRR *)

(** C1: NRR returns 0 when startMRR = 0, and otherwise
    ((startMRR + expansionMRR - contractionMRR - churnedMRR) / startMRR) * 100
    with an absent expansionMRR or contractionMRR counted as 0; two inputs
    that differ only in newMRR give the same result.  The method of the
    class returns what the exported function returns. *)
Theorem calculateNRR_formula (i : NRRInput float64) :
  (strict_eq (startMRR i) #0 = true -> calculateNRR i = #0) /\
  (strict_eq (startMRR i) #0 = false ->
   calculateNRR i =
   NRR_formula (startMRR i) (or_zero (expansionMRR i)) (or_zero (contractionMRR i))
               (churnedMRR i)) /\
  (forall j : NRRInput float64,
     startMRR j = startMRR i -> expansionMRR j = expansionMRR i ->
     contractionMRR j = contractionMRR i -> churnedMRR j = churnedMRR i ->
     calculateNRR j = calculateNRR i) /\
  LTVCalculator.calculateNRR i = calculateNRR i.
Proof.
  repeat split.
  - intros E. unfold calculateNRR. rewrite E. reflexivity.
  - intros E. unfold calculateNRR. rewrite E. reflexivity.
  - intros j Hs He Hc Hh. unfold calculateNRR. rewrite Hs, He, Hc, Hh. reflexivity.
Qed.

Lemma calculateNRR_formula_witness :
  calculateNRR (TestData.nrr_input 0 None None 300) = #0 /\
  calculateNRR (TestData.nrr_input 10000 (Some 1000) None 300) =
    NRR_formula #10000 #1000 #0 #300 /\
  calculateNRR (Build_NRRInput #10000 (Some #4000) (Some #1000) None #300) =
    calculateNRR (TestData.nrr_input 10000 (Some 1000) None 300).
Proof.
  split; [| split].
  - apply (proj1 (calculateNRR_formula (TestData.nrr_input 0 None None 300))).
    reflexivity.
  - apply (proj1 (proj2 (calculateNRR_formula
                           (TestData.nrr_input 10000 (Some 1000) None 300)))).
    reflexivity.
  - apply (proj1 (proj2 (proj2 (calculateNRR_formula
                                  (TestData.nrr_input 10000 (Some 1000) None 300)))));
      reflexivity.
Defined.

(** ** Division by zero *)

(** C4: CustomerChurnRate with startCustomers = 0 and RevenueChurnRate with
    startMRR = 0 return 0; ARPU(sales, 0) is not guarded and is Infinity for
    sales > 0 and NaN for sales = 0.  Every operation is a total function
    into numbers: none has an error result. *)
Theorem zero_denominator_policy :
  (forall i : CustomerChurnInput float64,
     strict_eq (startCustomers i) #0 = true -> calculateCustomerChurnRate i = #0) /\
  (forall i : RevenueChurnInput float64,
     strict_eq (rc_startMRR i) #0 = true -> calculateRevenueChurnRate i = #0) /\
  (forall sales : float64, ltb #0 sales = true -> calculateARPU sales #0 = Infinity) /\
  (forall sales : float64, strict_eq sales #0 = true -> calculateARPU sales #0 = NaN).
Proof.
  repeat split.
  - intros i E. unfold calculateCustomerChurnRate. rewrite E. reflexivity.
  - intros i E. unfold calculateRevenueChurnRate. rewrite E. reflexivity.
  - intros sales E. destruct sales as [[] | [] | | [] m e]; try discriminate E; reflexivity.
  - intros sales E. apply strict_eq_zero in E. destruct E as [-> | ->]; reflexivity.
Qed.

Lemma zero_denominator_policy_witness :
  calculateCustomerChurnRate (Build_CustomerChurnInput #0 #5) = #0 /\
  calculateRevenueChurnRate (Build_RevenueChurnInput neg_zero #500 (Some #200)) = #0 /\
  calculateARPU #100 #0 = Infinity /\
  calculateARPU neg_zero #0 = NaN.
Proof.
  destruct zero_denominator_policy as (H1 & H2 & H3 & H4).
  split; [| split; [| split]].
  - apply H1. reflexivity.
  - apply H2. reflexivity.
  - apply H3. reflexivity.
  - apply H4. reflexivity.
Defined.

(** The class: [calcARPU] stores the unguarded quotient; [getARPU], given a
    user count of [0], does not calculate and returns the stored ARPU. *)
Lemma calcARPU_zero_users (this : LTVCalculator.t) (sales : float64) :
  ltb #0 sales = true ->
  LTVCalculator.arpu (LTVCalculator.calcARPU sales #0 this) = Infinity /\
  snd (LTVCalculator.getARPU (Some sales) (Some #0) this) = LTVCalculator.arpu this.
Proof.
  intros E. split.
  - destruct sales as [[] | [] | | [] m e]; try discriminate E; reflexivity.
  - unfold LTVCalculator.getARPU. replace (truthy #0) with false by reflexivity.
    rewrite andb_false_r. reflexivity.
Qed.

(** ** Average duration *)

(** The exported function: AverageDuration(churnRate, unit) is
    1 / (churnRate / 100) for the unit percentage and 1 / churnRate for the
    other unit; an omitted unit is percentage; AverageDuration(0, percentage)
    is Infinity. *)
Theorem calculateAverageDuration_units (churnRate : float64) :
  calculateAverageDuration churnRate (Some percentage) = div #1 (div churnRate #100) /\
  calculateAverageDuration churnRate (Some number) = div #1 churnRate /\
  calculateAverageDuration churnRate None =
    calculateAverageDuration churnRate (Some percentage) /\
  calculateAverageDuration #0 (Some percentage) = Infinity /\
  calculateAverageDuration #0 None = Infinity.
Proof. repeat split. Qed.

(** The method of the class, given a churn rate that is truthy, stores what
    the exported function returns; given [0] or [NaN] it uses the stored
    churn rate in its place. *)
Lemma calcAverageDurationByChurnRate_given
    (this : LTVCalculator.t) (churnRate : float64) (type : option NumberType) :
  LTVCalculator.defaultNumberType this = percentage ->
  truthy churnRate = true ->
  LTVCalculator.averageDuration
    (LTVCalculator.calcAverageDurationByChurnRate (Some churnRate) type this)
  = calculateAverageDuration churnRate type.
Proof.
  intros Hd Ht. unfold LTVCalculator.calcAverageDurationByChurnRate, calculateAverageDuration.
  rewrite Ht, Hd. destruct type as [[] |]; reflexivity.
Qed.

Lemma calcAverageDurationByChurnRate_stored
    (this : LTVCalculator.t) (churnRate : float64) (type : option NumberType) :
  LTVCalculator.defaultNumberType this = percentage ->
  truthy churnRate = false ->
  LTVCalculator.averageDuration
    (LTVCalculator.calcAverageDurationByChurnRate (Some churnRate) type this)
  = calculateAverageDuration (LTVCalculator.churnRate this) type.
Proof.
  intros Hd Ht. unfold LTVCalculator.calcAverageDurationByChurnRate, calculateAverageDuration.
  rewrite Ht, Hd. destruct type as [[] |]; reflexivity.
Qed.

(** ** ARR *)

(** C7: ARR(subscriptions) is MRR(subscriptions) * 12. *)
Theorem calculateARR_twelve_times_MRR (subscriptions : list (Subscription float64)) :
  calculateARR subscriptions = mul (calculateMRR subscriptions) #12 /\
  LTVCalculator.calculateARR subscriptions =
    mul (LTVCalculator.calculateMRR subscriptions) #12.
Proof. split; reflexivity. Qed.

(** ** Historical LTV *)

(** C8: HistoricalLTV is 0 for the empty sequence and the arithmetic mean,
    sum divided by length, for a non-empty one; so is the method of the
    class. *)
Theorem calculateHistoricalLTV_mean :
  calculateHistoricalLTV (N := float64) [] = #0 /\
  (forall (x : float64) (l : list float64),
     calculateHistoricalLTV (x :: l) = mean (x :: l)) /\
  LTVCalculator.calculateHistoricalLTV (N := float64) [] = #0 /\
  (forall (x : float64) (l : list float64),
     LTVCalculator.calculateHistoricalLTV (x :: l) = mean (x :: l)).
Proof.
  split; [reflexivity | split; [| split]].
  - intros x l. unfold calculateHistoricalLTV, mean, sum, length_number.
    cbn [List.length Nat.eqb]. reflexivity.
  - reflexivity.
  - intros x l. unfold LTVCalculator.calculateHistoricalLTV, mean, sum, length_number.
    cbn [List.length Nat.eqb]. reflexivity.
Qed.

(** ** MRR *)

Lemma contribution_ranged (s : Subscription float64) :
  is_number (amount s) = true -> ranged (contribution s).
Proof.
  intros Hs. unfold contribution.
  destruct (String.eqb (interval s) "month"); [apply is_number_ranged; exact Hs |].
  destruct (String.eqb (interval s) "year"); [apply div_ranged |].
  destruct (String.eqb (interval s) "week"); [apply div_ranged |].
  destruct (String.eqb (interval s) "day"); [apply div_ranged |].
  exact I.
Qed.

(** A total that is not [-0] stays so, and adding [0] to it changes nothing:
    an ignored subscription contributes [0]. *)
Lemma fold_contributions (step : float64 -> Subscription float64 -> float64)
    (subs : list (Subscription float64)) : forall total : float64,
  (forall t s, t <> neg_zero -> step t s = add t (contribution s)) ->
  Forall (fun s => is_number (amount s) = true) subs ->
  ranged total -> total <> neg_zero ->
  fold_left step subs total = fold_left add (map contribution subs) total.
Proof.
  induction subs as [| s subs IH]; intros total Hstep Hsubs Hr Hn; [reflexivity |].
  inversion Hsubs as [| ? ? Hs Hsubs']; subst.
  pose proof (contribution_ranged s Hs) as Hc.
  cbn [fold_left map]. rewrite (Hstep total s Hn).
  apply IH; try assumption.
  - apply add_ranged; assumption.
  - apply add_not_neg_zero; assumption.
Qed.

(** C5: MRR is the sum over the subscriptions of the monthly equivalent of
    each: amount for month, amount / 12 for year, amount * 52 / 12 for week,
    amount * 365 / 12 for day and 0 for any other interval. *)
Theorem calculateMRR_sum (subscriptions : list (Subscription float64)) :
  Forall (fun s => is_number (amount s) = true) subscriptions ->
  calculateMRR subscriptions = sum (map contribution subscriptions) /\
  LTVCalculator.calculateMRR subscriptions = sum (map contribution subscriptions).
Proof.
  intros Hs.
  assert (H : calculateMRR subscriptions = sum (map contribution subscriptions)).
  { unfold calculateMRR, sum.
    apply fold_contributions; [| exact Hs | exact I | discriminate].
    intros t s Hn. unfold contribution. cbv beta zeta.
    destruct (String.eqb (interval s) "month"); [reflexivity |].
    destruct (String.eqb (interval s) "year"); [reflexivity |].
    destruct (String.eqb (interval s) "week"); [reflexivity |].
    destruct (String.eqb (interval s) "day"); [reflexivity |].
    symmetry. exact (add_zero_r t Hn). }
  split; [exact H | rewrite class_calculateMRR_eq; exact H].
Qed.

Lemma calculateMRR_sum_witness :
  calculateMRR [TestData.sub_of 1000 "month"; TestData.sub_of 12000 "year";
                TestData.sub_of 52 "week"; TestData.sub_of 3 "day";
                TestData.sub_of 70 "quarter"]
  = sum [#1000; div #12000 #12; div (mul #52 #52) #12; div (mul #3 #365) #12; #0].
Proof.
  apply (proj1 (calculateMRR_sum
                  [TestData.sub_of 1000 "month"; TestData.sub_of 12000 "year";
                   TestData.sub_of 52 "week"; TestData.sub_of 3 "day";
                   TestData.sub_of 70 "quarter"]
                  ltac:(repeat constructor))).
Defined.

(** ** GRR and revenue churn *)

(** C9, as stated, fails in binary64: for startMRR = 3 and churnedMRR = 1 the
    two sides are the neighbouring doubles 66.66666666666666 and
    66.66666666666667. *)
Lemma calculateGRR_revenue_churn_rounding :
  let i := TestData.nrr_input 3 None None 1 in
  strict_eq (startMRR i) #0 = false /\
  calculateGRR i = S754_finite false 4691249611844266 (-46) /\
  sub #100 (calculateRevenueChurnRate (revenue_churn_of i))
    = S754_finite false 4691249611844267 (-46) /\
  calculateGRR i <> sub #100 (calculateRevenueChurnRate (revenue_churn_of i)).
Proof.
  cbv zeta. repeat split; try (vm_compute; reflexivity).
  vm_compute. discriminate.
Qed.

Lemma exact_nonzero (x : Qc) : strict_eq x (lit 0) = false -> x <> 0%Qc.
Proof.
  intros E Hx. subst x. discriminate E.
Qed.

(** C9, amended: for startMRR other than 0, GRR(input) is
    ((startMRR - contractionMRR - churnedMRR) / startMRR) * 100 and
    RevenueChurnRate({startMRR, churnedMRR, contractionMRR}) is
    ((churnedMRR + contractionMRR) / startMRR) * 100, from the same three
    numbers, an absent contractionMRR counted as 0.  Read in exact
    arithmetic, GRR(input) is 100 - RevenueChurnRate(...).  In binary64 the
    equality does not hold for every such input: the two sides are rounded
    separately (startMRR = 3, churnedMRR = 1) and overflow separately (all
    three amounts 2^1023 give -100 and -Infinity).  At startMRR = 0 both
    functions return 0, in exact arithmetic as in binary64, so the identity
    does not hold there. *)
Theorem calculateGRR_revenue_churn_exact :
  (forall i : NRRInput Qc,
     strict_eq (startMRR i) (lit 0) = false ->
     calculateGRR i = sub (lit 100) (calculateRevenueChurnRate (revenue_churn_of i))) /\
  (forall i : NRRInput Qc,
     strict_eq (startMRR i) (lit 0) = true ->
     calculateGRR i = lit 0 /\ calculateRevenueChurnRate (revenue_churn_of i) = lit 0 /\
     calculateGRR i <> sub (lit 100) (calculateRevenueChurnRate (revenue_churn_of i))) /\
  (forall i : NRRInput float64,
     strict_eq (startMRR i) #0 = true ->
     calculateGRR i = #0 /\ calculateRevenueChurnRate (revenue_churn_of i) = #0 /\
     calculateGRR i <> sub #100 (calculateRevenueChurnRate (revenue_churn_of i))) /\
  (forall i : NRRInput float64,
     strict_eq (startMRR i) #0 = false ->
     calculateGRR i
     = mul (div (sub (sub (startMRR i) (or_zero (contractionMRR i))) (churnedMRR i))
                (startMRR i)) #100 /\
     calculateRevenueChurnRate (revenue_churn_of i)
     = mul (div (add (churnedMRR i) (or_zero (contractionMRR i))) (startMRR i)) #100 /\
     LTVCalculator.calculateGRR i = calculateGRR i /\
     LTVCalculator.calculateRevenueChurnRate (revenue_churn_of i)
     = calculateRevenueChurnRate (revenue_churn_of i)) /\
  (let i := TestData.nrr_input 3 None None 1 in
   strict_eq (startMRR i) #0 = false /\
   calculateGRR i <> sub #100 (calculateRevenueChurnRate (revenue_churn_of i))) /\
  (let i := TestData.nrr_input (2 ^ 1023) None (Some (2 ^ 1023)) (2 ^ 1023) in
   strict_eq (startMRR i) #0 = false /\
   calculateGRR i = SFopp #100 /\
   sub #100 (calculateRevenueChurnRate (revenue_churn_of i)) = S754_infinity true).
Proof.
  split; [| split; [| split; [| split; [| split]]]].
  - intros i E. pose proof (exact_nonzero _ E) as Hs.
    unfold calculateGRR, calculateRevenueChurnRate, revenue_churn_of.
    cbn [rc_startMRR rc_churnedMRR rc_contractionMRR]. rewrite E.
    destruct (contractionMRR i) as [c |]; cbn [lit add sub mul div exact];
      field; exact Hs.
  - intros i E. unfold calculateGRR, calculateRevenueChurnRate, revenue_churn_of.
    cbn [rc_startMRR rc_churnedMRR rc_contractionMRR]. rewrite E.
    repeat split. intros H. vm_compute in H. discriminate H.
  - intros i E. unfold calculateGRR, calculateRevenueChurnRate, revenue_churn_of.
    cbn [rc_startMRR rc_churnedMRR rc_contractionMRR]. rewrite E.
    repeat split. intros H. vm_compute in H. discriminate H.
  - intros i E.
    unfold LTVCalculator.calculateGRR, LTVCalculator.calculateRevenueChurnRate,
      calculateGRR, calculateRevenueChurnRate, revenue_churn_of, or_zero.
    cbn [rc_startMRR rc_churnedMRR rc_contractionMRR]. rewrite E. repeat split.
  - cbv zeta. split; [vm_compute; reflexivity | vm_compute; discriminate].
  - cbv zeta. repeat split; vm_compute; reflexivity.
Qed.

Lemma calculateGRR_revenue_churn_exact_witness :
  (let i : NRRInput Qc := Build_NRRInput (lit 3) None None None (lit 1) in
   calculateGRR i = sub (lit 100) (calculateRevenueChurnRate (revenue_churn_of i))) /\
  (let i := TestData.nrr_input 10000 None (Some 200) 300 in
   calculateGRR i = mul (div (sub (sub #10000 #200) #300) #10000) #100).
Proof.
  cbv zeta. split.
  - apply (proj1 calculateGRR_revenue_churn_exact). reflexivity.
  - apply (proj1 (proj2 (proj2 (proj2 calculateGRR_revenue_churn_exact)))
             (TestData.nrr_input 10000 None (Some 200) 300)).
    reflexivity.
Defined.

(** ** Cohort retention *)

Lemma map_const_repeat (A B : Type) (b : B) (l : list A) :
  map (fun _ => b) l = repeat b (List.length l).
Proof. induction l as [| x l IH]; simpl; [reflexivity | rewrite IH; reflexivity]. Qed.

(** The function in terms of its sorted copy. *)
Lemma calculateCohortRetention_sortedCohorts (l : list (CohortDataPoint float64)) :
  calculateCohortRetention l = retention_in_month_order (List.length l) (sortedCohorts l).
Proof.
  unfold calculateCohortRetention, retention_in_month_order.
  destruct l as [| c l]; [reflexivity |].
  cbn [List.length Nat.eqb].
  destruct (sortedCohorts (c :: l)) as [| first rest] eqn:Es; [reflexivity |].
  destruct (strict_eq (customers first) #0); [| reflexivity].
  rewrite map_const_repeat. f_equal.
  rewrite <- Es. unfold sortedCohorts. rewrite array_sort_length. reflexivity.
Qed.

(** C3: CohortRetention returns the empty sequence for empty input;
    otherwise, with the input sorted ascending by month by a stable sort and
    base the customers of the first sorted cohort, it returns zeros, as many
    as the input has cohorts, when base = 0, and otherwise
    (customers / base) * 100 for every cohort in sorted order. *)
Theorem calculateCohortRetention_in_month_order :
  calculateCohortRetention (N := float64) [] = [] /\
  forall l : list (CohortDataPoint float64),
    months_are_numbers l ->
    (exists s, stable_sort_by_month l s) /\
    (forall s, stable_sort_by_month l s ->
       calculateCohortRetention l = retention_in_month_order (List.length l) s) /\
    LTVCalculator.calculateCohortRetention l = calculateCohortRetention l.
Proof.
  split; [reflexivity |]. intros l Hl. split; [| split].
  - exists (sortedCohorts l). apply sortedCohorts_stable_sort. exact Hl.
  - intros s Hs. rewrite (stable_sort_by_month_unique l s Hl Hs).
    apply calculateCohortRetention_sortedCohorts.
  - reflexivity.
Qed.

Lemma calculateCohortRetention_in_month_order_witness :
  calculateCohortRetention
    [TestData.cohort 2 85; TestData.cohort 0 100; TestData.cohort 1 90; TestData.cohort 1 40]
  = retention_in_month_order 4
      [TestData.cohort 0 100; TestData.cohort 1 90; TestData.cohort 1 40; TestData.cohort 2 85].
Proof.
  pose (l := [TestData.cohort 2 85; TestData.cohort 0 100; TestData.cohort 1 90;
              TestData.cohort 1 40]).
  assert (Hl : months_are_numbers l) by (repeat constructor).
  apply (proj1 (proj2 (proj2 calculateCohortRetention_in_month_order l Hl))).
  exact (sortedCohorts_stable_sort l Hl).
Defined.

Lemma distinct_months_NoDup (l : list (CohortDataPoint float64)) :
  months_are_numbers l -> distinct_months l -> NoDup (map month_key l).
Proof.
  intros Hl Hd. induction Hd as [| a l Ha Hd IH]; [constructor |].
  inversion Hl as [| ? ? [Va Na] Hl']; subst. simpl. constructor; [| apply IH; exact Hl'].
  intros Hin. apply in_map_iff in Hin. destruct Hin as (x & Hk & Hx).
  unfold months_are_numbers in Hl'. rewrite Forall_forall in Ha, Hl'.
  destruct (Hl' x Hx) as [Vx Nx]. specialize (Ha x Hx).
  rewrite (eqb_val _ _ Va Vx Na Nx) in Ha. apply Z.eqb_neq in Ha.
  unfold month_key in Hk. congruence.
Qed.

(** C2, as stated, fails: two cohorts of the same month keep their input
    order, and the first of them is the base. *)
Lemma calculateCohortRetention_order_of_ties :
  let l := [TestData.cohort 0 100; TestData.cohort 0 50] in
  let l' := [TestData.cohort 0 50; TestData.cohort 0 100] in
  Permutation l l' /\
  calculateCohortRetention l = [#100; #50] /\
  calculateCohortRetention l' = [#100; #200] /\
  calculateCohortRetention l' <> calculateCohortRetention l.
Proof.
  cbv zeta. split; [apply perm_swap | split; [| split]].
  - vm_compute. reflexivity.
  - vm_compute. reflexivity.
  - vm_compute. discriminate.
Qed.

(** C2, amended: for a list of cohorts whose months are pairwise different
    numbers, CohortRetention returns the same sequence on every permutation
    of the list. *)
Theorem calculateCohortRetention_permutation (l l' : list (CohortDataPoint float64)) :
  Permutation l l' -> months_are_numbers l -> distinct_months l ->
  calculateCohortRetention l' = calculateCohortRetention l.
Proof.
  intros Hp Hl Hd.
  rewrite !calculateCohortRetention_sortedCohorts.
  rewrite (sortedCohorts_by_key l Hl).
  rewrite (sortedCohorts_by_key l' (months_are_numbers_perm _ _ Hp Hl)).
  rewrite (sort_by_key_perm_distinct _ month_key l l' Hp (distinct_months_NoDup l Hl Hd)).
  rewrite (Permutation_length Hp). reflexivity.
Qed.

Lemma calculateCohortRetention_permutation_witness :
  calculateCohortRetention [TestData.cohort 2 85; TestData.cohort 0 100; TestData.cohort 1 90]
  = calculateCohortRetention [TestData.cohort 0 100; TestData.cohort 1 90; TestData.cohort 2 85].
Proof.
  apply calculateCohortRetention_permutation.
  - apply Permutation_sym.
    change [TestData.cohort 2 85; TestData.cohort 0 100; TestData.cohort 1 90]
      with ([TestData.cohort 2 85] ++ [TestData.cohort 0 100; TestData.cohort 1 90]).
    apply (Permutation_app_comm [TestData.cohort 2 85]).
  - repeat constructor.
  - repeat constructor.
Defined.

(** A finite number other than zero divided by itself is [1]. *)
Lemma div_same (x : float64) :
  is_finite x = true -> strict_eq x #0 = false -> div x x = #1.
Proof.
  destruct x as [sx | sx | | sx mx ex]; intros Hf Hz; try discriminate Hf.
  - destruct sx; vm_compute in Hz; discriminate Hz.
  - exact (div_self sx mx ex).
Qed.

(** C10: for a non-empty list of cohorts whose earliest-month cohort, after
    the stable sort by month, has customers other than 0, the output of
    CohortRetention is as long as the input and its first element is 100;
    the input array is not mutated, the sort being applied to a copy.
    Customers is a count, a finite number.  The output of the method of the
    class has the same length and first element. *)
Theorem calculateCohortRetention_base_is_100
    (l s : list (CohortDataPoint float64)) (first : CohortDataPoint float64)
    (rest : list (CohortDataPoint float64)) :
  months_are_numbers l ->
  stable_sort_by_month l s -> s = first :: rest ->
  is_finite (customers first) = true ->
  strict_eq (customers first) #0 = false ->
  List.length (calculateCohortRetention l) = List.length l /\
  hd_error (calculateCohortRetention l) = Some #100 /\
  (forall (st : store (CohortDataPoint float64)) (cohorts : ref),
    deref st cohorts = l ->
    snd (calculateCohortRetention_store st cohorts) = calculateCohortRetention l /\
    forall r : ref, (r < List.length st)%nat ->
      deref (fst (calculateCohortRetention_store st cohorts)) r = deref st r) /\
  List.length (LTVCalculator.calculateCohortRetention l) = List.length l /\
  hd_error (LTVCalculator.calculateCohortRetention l) = Some #100.
Proof.
  intros Hl Hs Es Hfin Hnz.
  change (LTVCalculator.calculateCohortRetention l) with (calculateCohortRetention l).
  assert (G : forall A B C : Prop, A /\ B /\ C -> A /\ B /\ C /\ A /\ B) by tauto.
  apply G.
  pose proof (calculateCohortRetention_sortedCohorts l) as Hout.
  rewrite <- (stable_sort_by_month_unique l s Hl Hs) in Hout.
  subst s. unfold retention_in_month_order in Hout. cbv zeta in Hout.
  rewrite Hnz in Hout.
  split; [| split].
  - rewrite Hout, length_map. symmetry.
    exact (Permutation_length (proj1 Hs)).
  - rewrite Hout. cbn [map hd_error]. rewrite (div_same _ Hfin Hnz). reflexivity.
  - intros st cohorts <-. apply calculateCohortRetention_store_pure.
Qed.

Lemma calculateCohortRetention_base_is_100_witness :
  let l := [TestData.cohort 2 85; TestData.cohort 0 100; TestData.cohort 1 90] in
  List.length (calculateCohortRetention l) = 3%nat /\
  hd_error (calculateCohortRetention l) = Some #100 /\
  deref (fst (calculateCohortRetention_store [l] 0%nat)) 0%nat = l.
Proof.
  pose (l := [TestData.cohort 2 85; TestData.cohort 0 100; TestData.cohort 1 90]).
  assert (Hl : months_are_numbers l) by (repeat constructor).
  destruct (calculateCohortRetention_base_is_100 l (sortedCohorts l)
              (TestData.cohort 0 100) [TestData.cohort 1 90; TestData.cohort 2 85]
              Hl (sortedCohorts_stable_sort l Hl) eq_refl eq_refl eq_refl)
    as (H1 & H2 & H3 & _).
  split; [exact H1 | split; [exact H2 |]].
  exact (proj2 (H3 [l] 0%nat eq_refl) 0%nat (Nat.lt_0_succ 0)).
Defined.

(** For a base that is not finite the quotient is not [1]: the first
    element is [NaN]. *)
Lemma calculateCohortRetention_infinite_base :
  calculateCohortRetention [Build_CohortDataPoint #0 Infinity] = [NaN].
Proof. vm_compute. reflexivity. Qed.

(** * Further properties of the code *)

(** ** The instance *)

(** A number is falsy exactly when it is a zero or [NaN]. *)
Lemma truthy_false (x : float64) :
  truthy x = false <-> is_nan x = true \/ strict_eq x #0 = true.
Proof.
  unfold truthy. destruct x as [[] | [] | | [] m e]; cbn; split; intros E;
    try discriminate E; auto.
  all: try (destruct E as [E | E]; discriminate E).
  all: try (rewrite andb_true_r in E).
  all: exfalso; revert E.
  all: replace (Pos.compare_cont Eq m m) with Eq by (symmetry; apply Pos.compare_refl);
       rewrite Z.compare_refl; discriminate.
Qed.

Section InstanceFacts.
Import LTVCalculator.

Lemma run_defaultNumberType (c : Calls.call) (this : t (N := float64)) :
  defaultNumberType (Calls.run c this) = defaultNumberType this.
Proof.
  destruct c as [a | s u | s u | r | r ty | r ty | d | d a | d a]; cbn [Calls.run];
    try reflexivity.
  - unfold getARPU. destruct s as [s |], u as [u |]; try reflexivity.
    destruct (truthy s && truthy u); reflexivity.
  - unfold getAverageDurationByChurnRate. destruct (truthy_arg r); reflexivity.
Qed.

Lemma reachable_defaultNumberType (this : t (N := float64)) :
  Calls.reachable this -> defaultNumberType this = percentage.
Proof.
  intros [cs ->]. unfold Calls.run_all.
  assert (G : forall this0 : t (N := float64),
            defaultNumberType (fold_left (fun this1 c => Calls.run c this1) cs this0)
            = defaultNumberType this0).
  { induction cs as [| c cs IH]; intros this0; [reflexivity |].
    cbn [fold_left]. rewrite IH. apply run_defaultNumberType. }
  rewrite G. reflexivity.
Qed.

(** X1: no method changes [defaultNumberType]: on every instance obtained
    from [new LTVCalculator()] by method calls it is ['percentage']. *)
Theorem defaultNumberType_is_percentage (this : t (N := float64)) :
  Calls.reachable this -> defaultNumberType this = percentage.
Proof.
  intros [cs ->]. unfold Calls.run_all. revert cs.
  assert (G : forall (cs : list Calls.call) (this0 : t (N := float64)),
            defaultNumberType this0 = percentage ->
            defaultNumberType (fold_left (fun this1 c => Calls.run c this1) cs this0)
            = percentage).
  { induction cs as [| c cs IH]; intros this0 H0; [exact H0 |].
    cbn [fold_left]. apply IH. rewrite run_defaultNumberType. exact H0. }
  intros cs. apply G. reflexivity.
Qed.

Lemma defaultNumberType_is_percentage_witness :
  defaultNumberType
    (Calls.run_all [Calls.CalcARPU #100 #10;
                    Calls.CalcAverageDurationByChurnRate (Some #10) (Some number);
                    Calls.GetLTV None None] create) = percentage.
Proof.
  apply defaultNumberType_is_percentage.
  exists [Calls.CalcARPU #100 #10;
          Calls.CalcAverageDurationByChurnRate (Some #10) (Some number);
          Calls.GetLTV None None].
  reflexivity.
Defined.
End InstanceFacts.

Section LTVFacts.
Import LTVCalculator.

Lemma mul_comm (x y : float64) : mul x y = mul y x.
Proof.
  destruct x as [sx | sx | | sx mx ex], y as [sy | sy | | sy my ey]; cbn;
    try reflexivity; try (rewrite (xorb_comm sx sy); reflexivity).
  rewrite (xorb_comm sx sy), (Pos.mul_comm mx my), (Z.add_comm ex ey). reflexivity.
Qed.

(** X2: LTV does not depend on the order of its two arguments: the product
    of two doubles is commutative. *)
Theorem calculateLTV_symmetric (arpu averageDuration : float64) :
  calculateLTV arpu averageDuration = calculateLTV averageDuration arpu.
Proof.
  unfold calculateLTV.
  destruct arpu as [sa | sa | | sa ma ea], averageDuration as [sd | sd | | sd md ed]; cbn;
    try reflexivity; try (rewrite (xorb_comm sa sd); reflexivity).
  rewrite (xorb_comm sa sd), (Pos.mul_comm ma md), (Z.add_comm ea ed). reflexivity.
Qed.

(** X3: the chain [calcARPU(sales, user).calcAverageDurationByChurnRate(rate,
    type).getLTV()] on an instance obtained by method calls returns what
    the exported functions return when composed, for a churn rate that is
    neither zero nor [NaN]. *)
Theorem chain_getLTV
    (this : t (N := float64)) (sales user rate : float64) (type : option NumberType) :
  Calls.reachable this -> truthy rate = true ->
  snd (getLTV None None
         (calcAverageDurationByChurnRate (Some rate) type (calcARPU sales user this)))
  = calculateLTV (calculateARPU sales user) (calculateAverageDuration rate type).
Proof.
  intros Hr Ht. pose proof (reachable_defaultNumberType this Hr) as Hd.
  unfold getLTV, calcLTV, calcAverageDurationByChurnRate, calcARPU, setARPU,
    setAverageDuration, calculateLTV, calculateARPU, calculateAverageDuration.
  cbn [snd ltv averageDuration arpu defaultNumberType]. rewrite Ht, Hd.
  destruct type as [[] |]; apply mul_comm.
Qed.

Lemma chain_getLTV_witness :
  snd (getLTV None None
         (calcAverageDurationByChurnRate (Some #10) None (calcARPU #100 #10 create)))
  = calculateLTV (calculateARPU #100 #10) (calculateAverageDuration #10 None).
Proof.
  apply chain_getLTV; [exists []; reflexivity | reflexivity].
Defined.

(** X4: an optional number given as [0], [-0] or [NaN] is treated as an
    omitted one by every method that has optional numbers: [getARPU],
    [calcAverageDurationByChurnRate], [getAverageDurationByChurnRate],
    [calcLTV] and [getLTV]. *)
Theorem falsy_argument_is_omitted
    (this : t (N := float64)) (x : float64) (o : option float64)
    (type : option NumberType) :
  is_nan x = true \/ strict_eq x #0 = true ->
  getARPU (Some x) o this = getARPU None o this /\
  getARPU o (Some x) this = getARPU o None this /\
  calcAverageDurationByChurnRate (Some x) type this
    = calcAverageDurationByChurnRate None type this /\
  getAverageDurationByChurnRate (Some x) type this
    = getAverageDurationByChurnRate None type this /\
  calcLTV (Some x) o this = calcLTV None o this /\
  calcLTV o (Some x) this = calcLTV o None this /\
  getLTV (Some x) o this = getLTV None o this /\
  getLTV o (Some x) this = getLTV o None this.
Proof.
  intros Hx. apply truthy_false in Hx.
  unfold getARPU, calcAverageDurationByChurnRate, getAverageDurationByChurnRate,
    getLTV, calcLTV, truthy_arg.
  destruct o as [v |]; rewrite ?Hx, ?andb_false_r; cbn [andb]; repeat split.
Qed.

Lemma falsy_argument_is_omitted_witness :
  getARPU (Some #100) (Some #0) (setARPU #7 create) = (setARPU #7 create, #7) /\
  getLTV (Some NaN) (Some #3) (setAverageDuration #5 create)
    = getLTV None (Some #3) (setAverageDuration #5 create).
Proof.
  split.
  - apply (proj1 (proj2 (falsy_argument_is_omitted (setARPU #7 create) #0 (Some #100) None
                           (or_intror eq_refl)))).
  - apply (proj1 (proj2 (proj2 (proj2 (proj2 (proj2 (proj2
             (falsy_argument_is_omitted (setAverageDuration #5 create) NaN (Some #3) None
                (or_introl eq_refl))))))))).
Defined.

(** [getLTV] writes the [ltv] field only, so calling it again with the
    same arguments returns the same value and the same instance. *)
Lemma getLTV_repeatable
    (this : t (N := float64)) (averageDuration0 arpu0 : option float64) :
  let '(this1, v) := getLTV averageDuration0 arpu0 this in
  getLTV averageDuration0 arpu0 this1 = (this1, v) /\
  arpu this1 = arpu this /\ averageDuration this1 = averageDuration this /\
  churnRate this1 = churnRate this.
Proof. unfold getLTV, calcLTV. cbn. repeat split. Qed.

(** The stored churn rate is written by [setChurnRate] alone. *)
Lemma run_churnRate (c : Calls.call) (this : t (N := float64)) :
  (forall r, c <> Calls.SetChurnRate r) -> churnRate (Calls.run c this) = churnRate this.
Proof.
  intros Hc.
  destruct c as [a | s u | s u | r | r ty | r ty | d | d a | d a]; cbn [Calls.run];
    try reflexivity.
  - unfold getARPU. destruct s as [s |], u as [u |]; try reflexivity.
    destruct (truthy s && truthy u); reflexivity.
  - exfalso. exact (Hc r eq_refl).
  - unfold getAverageDurationByChurnRate. destruct (truthy_arg r); reflexivity.
Qed.

(** X6: a churn rate passed to [calcAverageDurationByChurnRate] or to
    [getAverageDurationByChurnRate] is not stored: over any sequence of calls
    without [setChurnRate], [getChurnRate] returns what it returned before. *)
Theorem getChurnRate_only_set (cs : list Calls.call) (this : t (N := float64)) :
  Forall (fun c => forall r, c <> Calls.SetChurnRate r) cs ->
  getChurnRate (Calls.run_all cs this) = getChurnRate this.
Proof.
  unfold getChurnRate, Calls.run_all. intros Hcs. revert this.
  induction Hcs as [| c cs Hc Hcs IH]; intros this; [reflexivity |].
  cbn [fold_left]. rewrite IH. apply run_churnRate. exact Hc.
Qed.

Lemma getChurnRate_only_set_witness :
  getChurnRate
    (Calls.run_all [Calls.CalcAverageDurationByChurnRate (Some #10) None;
                    Calls.GetAverageDurationByChurnRate (Some #5) (Some number)] create)
  = #0.
Proof.
  apply (getChurnRate_only_set
           [Calls.CalcAverageDurationByChurnRate (Some #10) None;
            Calls.GetAverageDurationByChurnRate (Some #5) (Some number)] create).
  repeat constructor; discriminate.
Defined.
End LTVFacts.

(** ** MRR and the intervals it knows *)

Lemma unknown_interval_step (i : string) :
  known_interval i = false ->
  String.eqb i "month" = false /\ String.eqb i "year" = false /\
  String.eqb i "week" = false /\ String.eqb i "day" = false.
Proof.
  unfold known_interval. intros E.
  apply orb_false_iff in E. destruct E as [E Ed].
  apply orb_false_iff in E. destruct E as [E Ew].
  apply orb_false_iff in E. destruct E as [Em Ey]. auto.
Qed.

(** X7: subscriptions whose interval is none of month, year, week and day
    are skipped: MRR is the MRR of the list without them. *)
Theorem calculateMRR_skips_unknown (subscriptions : list (Subscription float64)) :
  calculateMRR subscriptions
  = calculateMRR (filter (fun s => known_interval (interval s)) subscriptions).
Proof.
  unfold calculateMRR. generalize (#0). 
  induction subscriptions as [| s subs IH]; intros total; [reflexivity |].
  cbn [fold_left filter].
  destruct (known_interval (interval s)) eqn:E.
  - cbn [fold_left]. apply IH.
  - destruct (unknown_interval_step _ E) as (Em & Ey & Ew & Ed).
    cbv zeta. rewrite Em, Ey, Ew, Ed. apply IH.
Qed.

(** ** Retention of revenue *)

Lemma add_any_zero (x z : float64) :
  strict_eq x #0 = false -> strict_eq z #0 = true -> add x z = x.
Proof.
  intros Hx Hz. apply strict_eq_zero in Hz.
  destruct x as [[] | [] | | [] m e]; try discriminate Hx;
    destruct Hz as [-> | ->]; reflexivity.
Qed.

(** X8: with expansionMRR absent or zero, NRR is GRR. *)
Theorem calculateNRR_without_expansion (i : NRRInput float64) :
  strict_eq (or_zero (expansionMRR i)) #0 = true ->
  calculateNRR i = calculateGRR i.
Proof.
  intros He. unfold calculateNRR, calculateGRR. fold (or_zero (expansionMRR i)).
  destruct (strict_eq (startMRR i) #0) eqn:Es; [reflexivity |].
  cbv zeta. rewrite (add_any_zero _ _ Es He). reflexivity.
Qed.

Lemma calculateNRR_without_expansion_witness :
  calculateNRR (TestData.nrr_input 10000 None (Some 200) 300)
  = calculateGRR (TestData.nrr_input 10000 None (Some 200) 300).
Proof. apply calculateNRR_without_expansion. reflexivity. Defined.

(** X9: revenue churn with contractionMRR absent is the customer churn
    formula on the same two numbers, for a churnedMRR other than [-0]. *)
Theorem calculateRevenueChurnRate_without_contraction (start churned : float64) :
  churned <> neg_zero ->
  calculateRevenueChurnRate (Build_RevenueChurnInput start churned None)
  = calculateCustomerChurnRate (Build_CustomerChurnInput start churned).
Proof.
  intros Hc. unfold calculateRevenueChurnRate, calculateCustomerChurnRate.
  cbn [rc_startMRR rc_churnedMRR rc_contractionMRR startCustomers churnedCustomers].
  destruct (strict_eq start #0); [reflexivity |].
  change (add churned #0) with (SFadd prec emax churned (S754_zero false)).
  rewrite (add_zero_r churned Hc). reflexivity.
Qed.

Lemma calculateRevenueChurnRate_without_contraction_witness :
  calculateRevenueChurnRate (Build_RevenueChurnInput #10000 #500 None)
  = calculateCustomerChurnRate (Build_CustomerChurnInput #10000 #500).
Proof. apply calculateRevenueChurnRate_without_contraction. discriminate. Defined.

(** ** Division by zero, continued *)

(** X10: with a user count of zero ARPU is never a finite number, whatever
    the sales: it is an infinity or [NaN]. *)
Theorem calculateARPU_zero_users_not_finite (sales users : float64) :
  strict_eq users #0 = true -> is_finite (calculateARPU sales users) = false.
Proof.
  intros Hu. apply strict_eq_zero in Hu.
  destruct Hu as [-> | ->]; destruct sales as [[] | [] | | [] m e]; reflexivity.
Qed.

Lemma calculateARPU_zero_users_not_finite_witness :
  is_finite (calculateARPU (S754_finite true 1 0) neg_zero) = false.
Proof. apply calculateARPU_zero_users_not_finite. reflexivity. Defined.

(** For a churn rate that is a zero the average duration is the infinity
    with the sign of that zero, under both units. *)
Lemma calculateAverageDuration_of_zero (s : bool) (type : option NumberType) :
  calculateAverageDuration (S754_zero s) type = S754_infinity s.
Proof. destruct s, type as [[] |]; reflexivity. Qed.

(** X11: an ARPU of zero with a churn rate of zero gives an LTV of [NaN]:
    zero times infinity. *)
Theorem calculateLTV_zero_arpu_zero_churn
    (arpu churnRate : float64) (type : option NumberType) :
  strict_eq arpu #0 = true -> strict_eq churnRate #0 = true ->
  calculateLTV arpu (calculateAverageDuration churnRate type) = NaN.
Proof.
  intros Ha Hc. apply strict_eq_zero in Ha, Hc.
  destruct Hc as [-> | ->]; rewrite calculateAverageDuration_of_zero;
    destruct Ha as [-> | ->]; reflexivity.
Qed.

Lemma calculateLTV_zero_arpu_zero_churn_witness :
  calculateLTV (calculateARPU #0 #10) (calculateAverageDuration #0 None) = NaN.
Proof. apply calculateLTV_zero_arpu_zero_churn; reflexivity. Defined.

(** ** [NaN] in sums *)

Lemma fold_add_nan (l : list float64) : fold_left add l NaN = NaN.
Proof. induction l as [| x l IH]; [reflexivity |]. cbn [fold_left]. exact IH. Qed.

Lemma fold_add_in_nan (l : list float64) : forall total : float64,
  In NaN l -> fold_left add l total = NaN.
Proof.
  induction l as [| x l IH]; intros total Hin; [destruct Hin |].
  cbn [fold_left]. destruct Hin as [-> | Hin]; [| apply IH; exact Hin].
  replace (add total NaN) with NaN by (destruct total; reflexivity).
  apply fold_add_nan.
Qed.

(** X12: a revenue that is [NaN] is not skipped: it makes HistoricalLTV
    [NaN]. *)
Theorem calculateHistoricalLTV_nan (customerRevenues : list float64) :
  In NaN customerRevenues -> calculateHistoricalLTV customerRevenues = NaN.
Proof.
  intros Hin. unfold calculateHistoricalLTV.
  destruct customerRevenues as [| x l]; [destruct Hin |].
  cbn [List.length Nat.eqb]. cbv zeta.
  change (fold_left (fun sum0 revenue => add sum0 revenue) (x :: l) #0)
    with (fold_left add (x :: l) #0).
  rewrite (fold_add_in_nan (x :: l) #0 Hin). reflexivity.
Qed.

Lemma calculateHistoricalLTV_nan_witness :
  calculateHistoricalLTV [#1000; NaN; #1500] = NaN.
Proof. apply calculateHistoricalLTV_nan. right. left. reflexivity. Defined.

(** ** Signs *)

Section Signs.

Lemma div_finite_rounded sx mx ex sy my ey :
  rounded (xorb sx sy) (SFdiv prec emax (S754_finite sx mx ex) (S754_finite sy my ey)).
Proof.
  unfold SFdiv.
  destruct (SFdiv_core_binary prec emax (Zpos mx) ex (Zpos my) ey) as [[mz ez] lz] eqn:E.
  apply binary_round_aux_rounded.
  unfold SFdiv_core_binary in E.
  match type of E with context [Z.div_eucl ?a ?b] =>
    pose proof (Z.div_eucl_eq a b ltac:(lia)) as Heq;
    pose proof (Z.mod_pos_bound a b ltac:(lia)) as Hmod;
    assert (Ha : 0 <= a);
    [| unfold Z.modulo in Hmod; destruct (Z.div_eucl a b) as [q r] ]
  end.
  { match goal with |- 0 <= match ?s with _ => _ end => destruct s end; try lia.
    apply Z.shiftl_nonneg. lia. }
  inversion E; subst. nia.
Qed.

Lemma mul_finite_rounded sx mx ex sy my ey :
  rounded (xorb sx sy) (SFmul prec emax (S754_finite sx mx ex) (S754_finite sy my ey)).
Proof. unfold SFmul. apply binary_round_aux_rounded. lia. Qed.

Lemma rounded_non_negative x : rounded false x -> non_negative x = true.
Proof. intros []; reflexivity. Qed.

Lemma rounded_not_nan s x : rounded s x -> is_nan x = false.
Proof. intros []; reflexivity. Qed.

Lemma non_negative_cases x :
  non_negative x = true ->
  (exists s, x = S754_zero s) \/ x = S754_infinity false \/
  (exists m e, x = S754_finite false m e).
Proof.
  destruct x as [s | [] | | [] m e]; intros E; try discriminate E; eauto.
Qed.

Lemma non_negative_add x y :
  non_negative x = true -> non_negative y = true -> non_negative (add x y) = true.
Proof.
  intros Hx Hy.
  destruct (non_negative_cases x Hx) as [[sx ->] | [-> | (mx & ex & ->)]];
    destruct (non_negative_cases y Hy) as [[sy ->] | [-> | (my & ey & ->)]];
    try reflexivity; try (destruct_bools; reflexivity).
  cbn [add binary64]. unfold SFadd. cbn [cond_Zopp].
  apply rounded_non_negative.
  match goal with |- rounded _ (binary_normalize _ _ (Zpos ?a + Zpos ?b) _ _) =>
    change (Zpos a + Zpos b) with (Zpos (a + b)) end.
  apply binary_round_rounded.
Qed.

Lemma non_negative_mul_finite x my ey :
  non_negative x = true -> non_negative (mul x (S754_finite false my ey)) = true.
Proof.
  intros Hx.
  destruct (non_negative_cases x Hx) as [[sx ->] | [-> | (mx & ex & ->)]];
    try reflexivity; try (destruct sx; reflexivity).
  apply rounded_non_negative. exact (mul_finite_rounded false mx ex false my ey).
Qed.

Lemma non_negative_div_finite x my ey :
  non_negative x = true -> non_negative (div x (S754_finite false my ey)) = true.
Proof.
  intros Hx.
  destruct (non_negative_cases x Hx) as [[sx ->] | [-> | (mx & ex & ->)]];
    try reflexivity; try (destruct sx; reflexivity).
  apply rounded_non_negative. exact (div_finite_rounded false mx ex false my ey).
Qed.

Lemma literals_finite :
  (exists m e, #12 = S754_finite false m e) /\
  (exists m e, #52 = S754_finite false m e) /\
  (exists m e, #365 = S754_finite false m e) /\
  (exists m e, #100 = S754_finite false m e) /\
  (exists m e, #1 = S754_finite false m e).
Proof. repeat split; eexists; eexists; vm_compute; reflexivity. Qed.

Lemma positive_finite_cases x :
  ltb #0 x = true -> is_finite x = true -> exists m e, x = S754_finite false m e.
Proof.
  destruct x as [[] | [] | | [] m e]; intros E F; try discriminate E; try discriminate F.
  eauto.
Qed.
End Signs.

(** X13: for amounts that are [>= 0], MRR and ARR are [>= 0]; in particular
    they are not [NaN]. *)
Theorem calculateMRR_non_negative (subscriptions : list (Subscription float64)) :
  Forall (fun s => non_negative (amount s) = true) subscriptions ->
  non_negative (calculateMRR subscriptions) = true /\
  non_negative (calculateARR subscriptions) = true.
Proof.
  intros Hs.
  destruct literals_finite as ((m12 & e12 & E12) & (m52 & e52 & E52) &
                               (m365 & e365 & E365) & _).
  assert (H : non_negative (calculateMRR subscriptions) = true).
  { unfold calculateMRR. 
    assert (H0 : non_negative #0 = true) by reflexivity. revert H0. generalize (#0).
    induction Hs as [| s subs Hs Hsubs IH]; intros total Ht; [exact Ht |].
    cbn [fold_left]. apply IH. cbv zeta.
    unfold MONTHS_PER_YEAR, WEEKS_PER_YEAR, DAYS_PER_YEAR. rewrite E12, E52, E365.
    destruct (String.eqb (interval s) "month"); [apply non_negative_add; assumption |].
    destruct (String.eqb (interval s) "year");
      [apply non_negative_add; [assumption | apply non_negative_div_finite; assumption] |].
    destruct (String.eqb (interval s) "week");
      [apply non_negative_add; [assumption |];
       apply non_negative_div_finite, non_negative_mul_finite; assumption |].
    destruct (String.eqb (interval s) "day");
      [apply non_negative_add; [assumption |];
       apply non_negative_div_finite, non_negative_mul_finite; assumption |].
    exact Ht. }
  split; [exact H |].
  unfold calculateARR, MONTHS_PER_YEAR. rewrite E12.
  apply non_negative_mul_finite. exact H.
Qed.

Lemma calculateMRR_non_negative_witness :
  non_negative (calculateMRR [TestData.sub_of 1000 "month"; TestData.sub_of 52 "week";
                              TestData.sub_of 0 "day"]) = true.
Proof.
  apply (proj1 (calculateMRR_non_negative
                  [TestData.sub_of 1000 "month"; TestData.sub_of 52 "week";
                   TestData.sub_of 0 "day"] ltac:(repeat constructor))).
Defined.

(** X14: the customer churn rate, for a finite startCustomers [> 0] and
    churnedCustomers [>= 0], and the revenue churn rate, for a finite
    startMRR [> 0], churnedMRR [>= 0] and contractionMRR absent or [>= 0], are
    [>= 0]; in particular they are not [NaN]. *)
Theorem churn_rates_non_negative :
  (forall i : CustomerChurnInput float64,
     ltb #0 (startCustomers i) = true -> is_finite (startCustomers i) = true ->
     non_negative (churnedCustomers i) = true ->
     non_negative (calculateCustomerChurnRate i) = true) /\
  (forall i : RevenueChurnInput float64,
     ltb #0 (rc_startMRR i) = true -> is_finite (rc_startMRR i) = true ->
     non_negative (rc_churnedMRR i) = true ->
     non_negative (or_zero (rc_contractionMRR i)) = true ->
     non_negative (calculateRevenueChurnRate i) = true).
Proof.
  destruct literals_finite as (_ & _ & _ & (m100 & e100 & E100) & _).
  split.
  - intros i Hp Hf Hc. destruct (positive_finite_cases _ Hp Hf) as (m & e & Es).
    unfold calculateCustomerChurnRate. cbv zeta. rewrite Es, E100.
    replace (strict_eq (S754_finite false m e) #0) with false by reflexivity.
    apply non_negative_mul_finite, non_negative_div_finite. exact Hc.
  - intros i Hp Hf Hc Hk. destruct (positive_finite_cases _ Hp Hf) as (m & e & Es).
    unfold calculateRevenueChurnRate. cbv zeta. fold (or_zero (rc_contractionMRR i)).
    rewrite Es, E100.
    replace (strict_eq (S754_finite false m e) #0) with false by reflexivity.
    apply non_negative_mul_finite, non_negative_div_finite, non_negative_add; assumption.
Qed.

Lemma churn_rates_non_negative_witness :
  non_negative (calculateCustomerChurnRate (Build_CustomerChurnInput #100 #5)) = true /\
  non_negative
    (calculateRevenueChurnRate (Build_RevenueChurnInput #10000 #500 (Some #200))) = true.
Proof.
  destruct churn_rates_non_negative as [H1 H2].
  split; [apply H1 | apply H2]; reflexivity.
Defined.

Lemma div_by_finite_not_nan (x : float64) sy my ey :
  is_nan x = false -> is_nan (div x (S754_finite sy my ey)) = false.
Proof.
  destruct x as [sx | sx | | sx mx ex]; intros Hx; try discriminate Hx; try reflexivity.
  exact (rounded_not_nan _ _ (div_finite_rounded sx mx ex sy my ey)).
Qed.

Lemma div_of_finite_not_nan sx mx ex (y : float64) :
  is_nan y = false -> is_nan (div (S754_finite sx mx ex) y) = false.
Proof.
  destruct y as [sy | sy | | sy my ey]; intros Hy; try discriminate Hy; try reflexivity.
  exact (rounded_not_nan _ _ (div_finite_rounded sx mx ex sy my ey)).
Qed.

(** X15: the average duration is [NaN] only for a churn rate that is [NaN]:
    for every other churn rate it is a number or an infinity, under both
    units; for a churn rate that is a zero it is the infinity with the sign
    of that zero, [-Infinity] for [-0]. *)
Theorem calculateAverageDuration_not_nan (churnRate : float64) (type : option NumberType) :
  is_nan churnRate = false ->
  is_nan (calculateAverageDuration churnRate type) = false /\
  (forall s : bool, churnRate = S754_zero s ->
   calculateAverageDuration churnRate type = S754_infinity s).
Proof.
  intros Hr. split.
  - destruct literals_finite as (_ & _ & _ & (m100 & e100 & E100) & (m1 & e1 & E1)).
    unfold calculateAverageDuration. rewrite E1, E100.
    destruct type as [[] |].
    + apply div_of_finite_not_nan, div_by_finite_not_nan. exact Hr.
    + apply div_of_finite_not_nan. exact Hr.
    + apply div_of_finite_not_nan, div_by_finite_not_nan. exact Hr.
  - intros s ->. apply calculateAverageDuration_of_zero.
Qed.

Lemma calculateAverageDuration_not_nan_witness :
  is_nan (calculateAverageDuration (S754_infinity true) (Some number)) = false /\
  calculateAverageDuration neg_zero None = S754_infinity true.
Proof.
  split.
  - apply (proj1 (calculateAverageDuration_not_nan (S754_infinity true) (Some number)
                    eq_refl)).
  - apply (proj2 (calculateAverageDuration_not_nan neg_zero None eq_refl) true).
    reflexivity.
Defined.

(** ** Cohorts *)

(** X16: the output of CohortRetention has as many elements as the input,
    for every input. *)
Theorem calculateCohortRetention_length (cohorts : list (CohortDataPoint float64)) :
  List.length (calculateCohortRetention cohorts) = List.length cohorts.
Proof.
  unfold calculateCohortRetention.
  destruct (Nat.eqb (List.length cohorts) 0) eqn:E.
  - apply Nat.eqb_eq in E. rewrite E. reflexivity.
  - destruct (sortedCohorts_first cohorts E) as (first & rest & Es).
    pose proof (array_sort_length _ by_month cohorts) as Hlen.
    fold (sortedCohorts cohorts) in Hlen. cbv zeta. rewrite Es in *.
    destruct (strict_eq (customers first) #0); rewrite length_map; exact Hlen.
Qed.

(** X17: on an input that is already in month order the sort changes
    nothing: the output follows the input order and the base is the first
    cohort of the input.  Sorting a sorted copy again changes nothing. *)
Theorem calculateCohortRetention_sorted_input (cohorts : list (CohortDataPoint float64)) :
  months_are_numbers cohorts ->
  (Sorted month_le cohorts ->
   sortedCohorts cohorts = cohorts /\
   calculateCohortRetention cohorts
     = retention_in_month_order (List.length cohorts) cohorts) /\
  sortedCohorts (sortedCohorts cohorts) = sortedCohorts cohorts.
Proof.
  intros Hl.
  assert (Hfix : forall l, months_are_numbers l -> Sorted month_le l -> sortedCohorts l = l).
  { intros l Hn Hs. symmetry. apply stable_sort_by_month_unique; [exact Hn |].
    split; [reflexivity | split; [exact Hs | reflexivity]]. }
  split.
  - intros Hs. pose proof (Hfix cohorts Hl Hs) as E. split; [exact E |].
    rewrite calculateCohortRetention_sortedCohorts, E. reflexivity.
  - destruct (sortedCohorts_stable_sort cohorts Hl) as (Hp & Hs & _).
    apply Hfix; [exact (months_are_numbers_perm _ _ Hp Hl) | exact Hs].
Qed.

Lemma calculateCohortRetention_sorted_input_witness :
  let l := [TestData.cohort 0 100; TestData.cohort 1 90; TestData.cohort 1 40] in
  sortedCohorts l = l /\
  calculateCohortRetention l = retention_in_month_order 3 l.
Proof.
  cbv zeta.
  apply (proj1 (calculateCohortRetention_sorted_input
                  [TestData.cohort 0 100; TestData.cohort 1 90; TestData.cohort 1 40]
                  ltac:(repeat constructor))).
  repeat constructor.
Defined.

Lemma retention_of_constant (l : list (CohortDataPoint float64)) (c : float64) :
  Forall (fun p => customers p = c) l ->
  is_finite c = true -> strict_eq c #0 = false ->
  map (fun cohort => mul (div (customers cohort) c) #100) l
  = repeat #100 (List.length l).
Proof.
  intros Hl Hf Hz. induction Hl as [| p l Hp Hl IH]; [reflexivity |].
  cbn [map List.length repeat]. rewrite IH, Hp, (div_same c Hf Hz).
  replace (mul #1 #100) with #100 by (vm_compute; reflexivity). reflexivity.
Qed.

(** X18: when every cohort has the same customers, a finite number other
    than zero, every retention is 100, whatever the months. *)
Theorem calculateCohortRetention_constant
    (cohorts : list (CohortDataPoint float64)) (c : float64) :
  Forall (fun p => customers p = c) cohorts ->
  is_finite c = true -> strict_eq c #0 = false ->
  calculateCohortRetention cohorts = repeat #100 (List.length cohorts).
Proof.
  intros Hc Hf Hz. rewrite calculateCohortRetention_sortedCohorts.
  pose proof (array_sort_perm _ by_month cohorts) as Hp.
  fold (sortedCohorts cohorts) in Hp.
  pose proof (Permutation_Forall Hp Hc) as Hs.
  rewrite (Permutation_length Hp).
  unfold retention_in_month_order.
  destruct (sortedCohorts cohorts) as [| first rest]; [reflexivity |].
  assert (Ef : customers first = c) by (inversion Hs; assumption).
  cbv zeta. rewrite Ef, Hz.
  apply retention_of_constant; assumption.
Qed.

Lemma calculateCohortRetention_constant_witness :
  calculateCohortRetention
    [TestData.cohort 3 70; TestData.cohort 1 70; TestData.cohort 3 70]
  = [#100; #100; #100].
Proof.
  apply (calculateCohortRetention_constant
           [TestData.cohort 3 70; TestData.cohort 1 70; TestData.cohort 3 70] #70);
    [repeat constructor | reflexivity | reflexivity].
Defined.

(** X19: on the store, for every store and every reference, the call
    leaves each array that existed before as it was, its argument included,
    and returns what the function returns on the contents of its
    argument. *)
Theorem calculateCohortRetention_store_frame
    (st : store (CohortDataPoint float64)) (cohorts : ref) :
  let out := calculateCohortRetention_store st cohorts in
  snd out = calculateCohortRetention (deref st cohorts) /\
  (forall r : ref, (r < List.length st)%nat -> deref (fst out) r = deref st r).
Proof.
  cbv zeta. destruct (calculateCohortRetention_store_pure st cohorts) as [H1 H2].
  split; [exact H1 | exact H2].
Qed.

(** ** Nothing lost, everything lost *)

(** X20: when every customer churned, churnedCustomers being startCustomers,
    a finite number other than zero, the customer churn rate is 100. *)
Theorem calculateCustomerChurnRate_all_churned (start : float64) :
  is_finite start = true -> strict_eq start #0 = false ->
  calculateCustomerChurnRate (Build_CustomerChurnInput start start) = #100.
Proof.
  intros Hf Hz. unfold calculateCustomerChurnRate.
  cbn [startCustomers churnedCustomers]. rewrite Hz, (div_same start Hf Hz).
  vm_compute. reflexivity.
Qed.

Lemma calculateCustomerChurnRate_all_churned_witness :
  calculateCustomerChurnRate (Build_CustomerChurnInput #37 #37) = #100.
Proof. apply calculateCustomerChurnRate_all_churned; reflexivity. Defined.

(** X21: with churnedMRR zero and contractionMRR absent or zero, GRR is 100
    for every finite startMRR other than zero; so is NRR when expansionMRR
    is absent or zero as well. *)
Theorem calculateGRR_nothing_lost (i : NRRInput float64) :
  is_finite (startMRR i) = true -> strict_eq (startMRR i) #0 = false ->
  strict_eq (churnedMRR i) #0 = true ->
  strict_eq (or_zero (contractionMRR i)) #0 = true ->
  calculateGRR i = #100 /\
  (strict_eq (or_zero (expansionMRR i)) #0 = true -> calculateNRR i = #100).
Proof.
  intros Hf Hz Hc Hk.
  assert (Hsub : forall z : float64, strict_eq z #0 = true -> sub (startMRR i) z = startMRR i).
  { intros z Ez. apply strict_eq_zero in Ez.
    destruct (startMRR i) as [[] | [] | | [] m e]; try discriminate Hf; try discriminate Hz;
      destruct Ez as [-> | ->]; reflexivity. }
  assert (Hg : calculateGRR i = #100).
  { unfold calculateGRR. fold (or_zero (contractionMRR i)). rewrite Hz. cbv zeta.
    rewrite (Hsub _ Hk), (Hsub _ Hc), (div_same _ Hf Hz). vm_compute. reflexivity. }
  split; [exact Hg |].
  intros He. unfold calculateNRR. fold (or_zero (expansionMRR i)).
  fold (or_zero (contractionMRR i)). rewrite Hz. cbv zeta.
  rewrite (add_any_zero _ _ Hz He), (Hsub _ Hk), (Hsub _ Hc), (div_same _ Hf Hz).
  vm_compute. reflexivity.
Qed.

Lemma calculateGRR_nothing_lost_witness :
  calculateGRR (TestData.nrr_input 10000 (Some 1000) None 0) = #100 /\
  calculateNRR (TestData.nrr_input 10000 None None 0) = #100.
Proof.
  split.
  - apply (proj1 (calculateGRR_nothing_lost (TestData.nrr_input 10000 (Some 1000) None 0)
                    eq_refl eq_refl eq_refl eq_refl)).
  - apply (proj2 (calculateGRR_nothing_lost (TestData.nrr_input 10000 None None 0)
                    eq_refl eq_refl eq_refl eq_refl)). reflexivity.
Defined.

(** ** The order of a sum *)

Section ExactSums.

Lemma exact_fold_add (l : list Qc) : forall a : Qc,
  fold_left add l a = (a + fold_left add l (lit 0))%Qc.
Proof.
  induction l as [| x l IH]; intros a; cbn [fold_left].
  - change (lit 0) with 0%Qc. ring.
  - rewrite IH, (IH (add (lit 0) x)). cbn [add exact]. change (lit 0) with 0%Qc. ring.
Qed.

Lemma exact_sum_perm (l l' : list Qc) : Permutation l l' -> sum l = sum l'.
Proof.
  unfold sum. induction 1 as [| x l l' Hp IH | x y l | l l' l'' H1 IH1 H2 IH2].
  - reflexivity.
  - cbn [fold_left]. rewrite (exact_fold_add l), (exact_fold_add l'), IH. reflexivity.
  - cbn [fold_left]. f_equal. cbn [add exact]. change (lit 0) with 0%Qc. ring.
  - congruence.
Qed.

Lemma exact_calculateMRR_sum (subs : list (Subscription Qc)) :
  calculateMRR subs = sum (map contribution subs).
Proof.
  unfold calculateMRR, sum. generalize (lit 0 : Qc).
  induction subs as [| s subs IH]; intros total; [reflexivity |].
  cbn [fold_left map]. rewrite <- IH. f_equal.
  unfold contribution, MONTHS_PER_YEAR, WEEKS_PER_YEAR, DAYS_PER_YEAR. cbv zeta.
  destruct (String.eqb (interval s) "month"); [reflexivity |].
  destruct (String.eqb (interval s) "year"); [reflexivity |].
  destruct (String.eqb (interval s) "week"); [reflexivity |].
  destruct (String.eqb (interval s) "day"); [reflexivity |].
  cbn [add exact]. change (lit 0) with 0%Qc. ring.
Qed.
End ExactSums.

(** X22: read in exact arithmetic, MRR and HistoricalLTV do not depend on
    the order of their input; in binary64 they do: the monthly amounts
    2^53, 1, 1 sum to 2^53 in this order and to 2^53 + 2 with the large
    amount last. *)
Theorem sums_and_order :
  (forall l l' : list (Subscription Qc),
     Permutation l l' -> calculateMRR l' = calculateMRR l) /\
  (forall l l' : list Qc,
     Permutation l l' -> calculateHistoricalLTV l' = calculateHistoricalLTV l) /\
  calculateMRR [TestData.sub_of (2 ^ 53) "month"; TestData.sub_of 1 "month";
                TestData.sub_of 1 "month"] = #(2 ^ 53) /\
  calculateMRR [TestData.sub_of 1 "month"; TestData.sub_of 1 "month";
                TestData.sub_of (2 ^ 53) "month"] = #(2 ^ 53 + 2) /\
  #(2 ^ 53) <> #(2 ^ 53 + 2).
Proof.
  split; [| split; [| split; [| split]]].
  - intros l l' Hp. rewrite !exact_calculateMRR_sum.
    symmetry. apply exact_sum_perm. apply Permutation_map. exact Hp.
  - intros l l' Hp. unfold calculateHistoricalLTV, length_number.
    rewrite <- (Permutation_length Hp).
    destruct (Nat.eqb (List.length l) 0); [reflexivity |]. cbv zeta.
    change (fold_left (fun sum0 revenue => add sum0 revenue) l' (lit 0)) with (sum l').
    change (fold_left (fun sum0 revenue => add sum0 revenue) l (lit 0)) with (sum l).
    rewrite (exact_sum_perm l l' Hp). reflexivity.
  - vm_compute. reflexivity.
  - vm_compute. reflexivity.
  - vm_compute. discriminate.
Qed.

Lemma sums_and_order_witness :
  calculateMRR [Build_Subscription (lit 12000 : Qc) "year"%string;
                Build_Subscription (lit 1000 : Qc) "month"%string]
  = calculateMRR [Build_Subscription (lit 1000 : Qc) "month"%string;
                  Build_Subscription (lit 12000 : Qc) "year"%string].
Proof. apply (proj1 sums_and_order). apply perm_swap. Defined.

(** ** The instance, continued *)

Section InstanceFields.
Import LTVCalculator.

Lemma run_other_fields (c : Calls.call) (this : t (N := float64)) :
  (Calls.writes_arpu c = false -> arpu (Calls.run c this) = arpu this) /\
  (Calls.writes_averageDuration c = false ->
   averageDuration (Calls.run c this) = averageDuration this).
Proof.
  destruct c as [a | s u | s u | r | r ty | r ty | d | d a | d a]; cbn [Calls.run];
    split; intros E; try discriminate E; try reflexivity.
  - unfold getARPU. destruct s as [s |], u as [u |]; try reflexivity.
    destruct (truthy s && truthy u); reflexivity.
  - unfold getAverageDurationByChurnRate. destruct (truthy_arg r); reflexivity.
Qed.

(** X23: the stored ARPU is assigned by [setARPU], [calcARPU] and [getARPU]
    alone, the stored average duration by [setAverageDuration],
    [calcAverageDurationByChurnRate] and [getAverageDurationByChurnRate]
    alone: over any sequence of other calls each keeps its value. *)
Theorem stored_values_kept (cs : list Calls.call) (this : t (N := float64)) :
  (Forall (fun c => Calls.writes_arpu c = false) cs ->
   arpu (Calls.run_all cs this) = arpu this) /\
  (Forall (fun c => Calls.writes_averageDuration c = false) cs ->
   averageDuration (Calls.run_all cs this) = averageDuration this).
Proof.
  unfold Calls.run_all. split; intros Hcs; revert this;
    induction Hcs as [| c cs Hc Hcs IH]; intros this; try reflexivity;
    cbn [fold_left]; rewrite IH.
  - exact (proj1 (run_other_fields c this) Hc).
  - exact (proj2 (run_other_fields c this) Hc).
Qed.

Lemma stored_values_kept_witness :
  arpu (Calls.run_all [Calls.CalcAverageDurationByChurnRate (Some #10) None;
                       Calls.SetChurnRate #5; Calls.GetLTV (Some #2) (Some #3)]
          (setARPU #7 create)) = #7 /\
  averageDuration (Calls.run_all [Calls.CalcARPU #100 #10; Calls.GetLTV None None]
                     (setAverageDuration #4 create)) = #4.
Proof.
  split.
  - apply (proj1 (stored_values_kept
                    [Calls.CalcAverageDurationByChurnRate (Some #10) None;
                     Calls.SetChurnRate #5; Calls.GetLTV (Some #2) (Some #3)]
                    (setARPU #7 create))).
    repeat constructor.
  - apply (proj2 (stored_values_kept [Calls.CalcARPU #100 #10; Calls.GetLTV None None]
                    (setAverageDuration #4 create))).
    repeat constructor.
Defined.

(** X5: the getters that take arguments: [getARPU(sales, user)], both
    neither zero nor [NaN], returns and stores what [calculateARPU] returns;
    [getAverageDurationByChurnRate(rate, type)], the rate neither zero nor
    [NaN], on an instance obtained by method calls returns and stores what
    [calculateAverageDuration] returns. *)
Theorem getters_with_arguments
    (this : t (N := float64)) (sales user rate : float64) (type : option NumberType) :
  (truthy sales = true -> truthy user = true ->
   getARPU (Some sales) (Some user) this
   = (setARPU (calculateARPU sales user) this, calculateARPU sales user)) /\
  (Calls.reachable this -> truthy rate = true ->
   getAverageDurationByChurnRate (Some rate) type this
   = (setAverageDuration (calculateAverageDuration rate type) this,
      calculateAverageDuration rate type)).
Proof.
  split.
  - intros Hs Hu. unfold getARPU. rewrite Hs, Hu. reflexivity.
  - intros Hr Ht. pose proof (reachable_defaultNumberType this Hr) as Hd.
    unfold getAverageDurationByChurnRate, calcAverageDurationByChurnRate,
      calculateAverageDuration, truthy_arg.
    rewrite Ht, Hd. destruct type as [[] |]; reflexivity.
Qed.

Lemma getters_with_arguments_witness :
  snd (getARPU (Some #100) (Some #10) create) = calculateARPU #100 #10 /\
  snd (getAverageDurationByChurnRate (Some TestData.one_tenth) (Some number) create)
  = calculateAverageDuration TestData.one_tenth (Some number).
Proof.
  destruct (getters_with_arguments create #100 #10 TestData.one_tenth (Some number))
    as [H1 H2].
  split.
  - rewrite (H1 eq_refl eq_refl). reflexivity.
  - rewrite (H2 (ex_intro _ [] eq_refl) eq_refl). reflexivity.
Defined.
End InstanceFields.

(** ** Average duration, the function and the method *)



